(** * The item ejector system of shapez.io (src/js/game/systems/item_ejector.js)

    A shallow embedding of [ItemEjectorSystem]: the connectivity cache
    (checkForCacheInvalidation, recomputeCache, recomputeAreaCache,
    recomputeSingleEntityCache), the per-tick transfer loop (update) and
    the handover dispatcher (tryPassOverItem).

    Modelling conventions.
    - JS objects are heap cells named by their uid: [entities] holds the
      component data of every entity object that was ever created (an
      object outlives its removal from the map), [ejectors] holds the
      mutable ItemEjector component of an entity, keyed by the owner's uid.
    - A slot reference stored in cachedConnectedSlots is the index of that
      slot in the component's [slots] array (the alias is the same object).
    - A thrown JS exception (a call on undefined, a failed assert) is an
      [Err] of the [Result] monad.
    - Progress is a rational number; Math.min is [Qmin].
    - Geometry (StaticMapEntity), acceptor slot matching and the receiving
      components (belt paths, storages, ...) live in other files; they are
      type classes whose methods are left abstract, so every theorem below
      holds for every implementation of them. *)

From Stdlib Require Import ZArith QArith Qminmax.
From Stdlib Require Import Sorting.Sorted Lqa.
From stdpp Require Import base gmap sets list strings.

Open Scope Z_scope.

(** ** Results of code that may throw *)

Inductive Result (A : Type) : Type :=
| Ok (a : A)
| Err (msg : string).
Arguments Ok {A} a.
Arguments Err {A} msg.

Global Instance Result_ret : MRet Result := λ A a, Ok a.
Global Instance Result_bind : MBind Result :=
  λ A B f m, match m with Ok a => f a | Err e => Err e end.

(** ** Vectors, directions, rectangles *)

Definition Vector : Type := (Z * Z)%type.

Definition vadd (a b : Vector) : Vector := (a.1 + b.1, a.2 + b.2).

Inductive Direction := Dtop | Dright | Dbottom | Dleft.

(** Modelled from the spec: core/vector.js is not part of the sources; the
    spec fixes enumDirectionToVector as the unit vector of a direction on
    the tile grid (y grows downwards). *)
Definition enumDirectionToVector (d : Direction) : Vector :=
  match d with
  | Dtop => (0, -1)
  | Dright => (1, 0)
  | Dbottom => (0, 1)
  | Dleft => (-1, 0)
  end.

(** Modelled from the spec: core/rectangle.js is not part of the sources.
    A rectangle is [x, y, w, h] on the tile grid, right = x + w and
    bottom = y + h; expanding by a margin grows each side by it, and the
    union of two rectangles is the single rectangle bounding both. *)
Module Rectangle.
Record t := mk { x : Z; y : Z; w : Z; h : Z }.

Definition right (r : t) : Z := x r + w r.
Definition bottom (r : t) : Z := y r + h r.

Definition expandedInAllDirections (r : t) (amount : Z) : t :=
  mk (x r - amount) (y r - amount) (w r + 2 * amount) (h r + 2 * amount).

Definition fromMinMax (minX minY maxX maxY : Z) : t :=
  mk minX minY (maxX - minX) (maxY - minY).

Definition getUnion (r o : t) : t :=
  fromMinMax (Z.min (x r) (x o)) (Z.min (y r) (y o))
             (Z.max (right r) (right o)) (Z.max (bottom r) (bottom o)).

(** The tile [p] lies inside [r]. *)
Definition containsTile (r : t) (p : Vector) : bool :=
  (x r <=? p.1) && (p.1 <? right r) && (y r <=? p.2) && (p.2 <? bottom r).
End Rectangle.

(** ** Collaborator interfaces *)

(** StaticMapEntity: the placement transform of an entity. *)
Class Placement (SC : Type) := {
  localTileToWorld : SC → Vector → Vector;
  localDirectionToWorld : SC → Direction → Direction;
  worldToLocalTile : SC → Vector → Vector;
  worldDirectionToLocal : SC → Direction → Direction;
  getTileSpaceBounds : SC → Rectangle.t
}.

(** The object returned by ItemAcceptorComponent.findMatchingSlot. *)
Record SlotMatch := mkSlotMatch {
  index : nat;
  acceptedDirection : Direction
}.

(** ItemAcceptorComponent.findMatchingSlot. *)
Class AcceptorQuery (AC : Type) := {
  findMatchingSlot : AC → Vector → Direction → option SlotMatch
}.

(** The receiving side: the acceptor's capacity check and commit hook, and
    the handover method of each receiver component, over the mutable state
    [RS] of those components (keyed by the receiver's uid). *)
Class Receivers (RS Item Path : Type) := {
  acceptor_canAcceptItem : RS → nat → nat → Item → bool;
  acceptor_onItemAccepted : RS → nat → nat → Direction → Item → RS;
  path_tryAcceptItem : RS → Path → Item → bool * RS;
  storage_canAcceptItem : RS → nat → Item → bool;
  storage_takeItem : RS → nat → Item → RS;
  processor_tryTakeItem : RS → nat → Item → nat → bool * RS;
  underground_tryAcceptExternalItem : RS → nat → Item → Q → bool * RS;
  generator_tryTakeItem : RS → nat → Item → bool * RS;
  getUndergroundBeltBaseSpeed : RS → Q
}.

(** What drawSingleEntity reads besides the ejector: the origin, rotation
    and visibility test of the StaticMapEntity, the rotation helpers of
    Vector (rotateFastMultipleOf90, transformDirectionFromMultipleOf90) and
    globalConfig.tileSize.  [DP] is the type of the DrawParameters. *)
Class Drawing (SC DP : Type) := {
  origin : SC → Vector;
  rotation : SC → Z;
  shouldBeDrawn : SC → DP → bool;
  rotateFastMultipleOf90 : Vector → Z → Vector;
  transformDirectionFromMultipleOf90 : Direction → Z → Direction;
  tileSize : Q
}.

(** ** The system *)

Section ItemEjectorSystem.

Context {SC AC Item Path RS : Type}.
Context `{!Placement SC} `{!AcceptorQuery AC} `{!Receivers RS Item Path}.

(** An ItemEjectorComponent slot. *)
Record EjectorSlot := mkEjectorSlot {
  pos : Vector;
  direction : Direction;
  item : option Item;
  progress : Q;
  cachedTargetEntity : option nat;
  cachedDestSlot : option SlotMatch
}.

Record ItemEjectorComponent := mkItemEjector {
  slots : list EjectorSlot;
  cachedConnectedSlots : option (list nat)
}.

Record BeltComponent := mkBelt { assignedPath : option Path }.

(** The components of an entity other than its ItemEjector. *)
Record Entity := mkEntity {
  StaticMapEntity : option SC;
  ItemAcceptor : option AC;
  Belt : option BeltComponent;
  Storage : bool;
  ItemProcessor : bool;
  UndergroundBelt : bool;
  EnergyGenerator : bool
}.

Record World := mkWorld {
  gameInitialized : bool;
  entities : gmap nat Entity;
  ejectors : gmap nat ItemEjectorComponent;
  tileContent : Vector → option nat;   (* root.map.getTileContent *)
  allEntities : list nat;              (* entities with an ItemEjector *)
  areaToRecompute : option Rectangle.t
}.

Definition set_ejectors (w : World) (ej : gmap nat ItemEjectorComponent) : World :=
  mkWorld (gameInitialized w) (entities w) ej (tileContent w) (allEntities w)
          (areaToRecompute w).

Definition set_area (w : World) (a : option Rectangle.t) : World :=
  mkWorld (gameInitialized w) (entities w) (ejectors w) (tileContent w)
          (allEntities w) a.

Definition slot_clear_cache (s : EjectorSlot) : EjectorSlot :=
  mkEjectorSlot (pos s) (direction s) (item s) (progress s) None None.

Definition slot_set_target (s : EjectorSlot) (te : nat) (m : SlotMatch) : EjectorSlot :=
  mkEjectorSlot (pos s) (direction s) (item s) (progress s) (Some te) (Some m).

(** Loop helpers: [for (const a of l)] and [for (i = lo; i < lo + n; ++i)]
    over a state that may throw. *)
Fixpoint forEach {A St : Type} (l : list A) (f : St → A → Result St) (s : St)
  : Result St :=
  match l with
  | [] => Ok s
  | a :: l' => s' ← f s a; forEach l' f s'
  end.

Fixpoint forRange {St : Type} (lo : Z) (n : nat) (f : St → Z → Result St) (s : St)
  : Result St :=
  match n with
  | O => Ok s
  | S n' => s' ← f s lo; forRange (lo + 1) n' f s'
  end.

(** ** checkForCacheInvalidation *)

Definition checkForCacheInvalidation (w : World) (entity : nat) : World :=
  if negb (gameInitialized w) then w else
  match entities w !! entity ≫= StaticMapEntity with
  | None => w
  | Some staticComp =>
      let bounds := getTileSpaceBounds staticComp in
      let expandedBounds := Rectangle.expandedInAllDirections bounds 2 in
      match areaToRecompute w with
      | Some a => set_area w (Some (Rectangle.getUnion a expandedBounds))
      | None => set_area w (Some expandedBounds)
      end
  end.

(** ** recomputeSingleEntityCache *)

(** The world tile a slot ejects into, with the world ejection direction. *)
Definition ejectTarget (staticComp : SC) (s : EjectorSlot) : Vector * Direction :=
  let ejectSlotWsTile := localTileToWorld staticComp (pos s) in
  let ejectSlotWsDirection := localDirectionToWorld staticComp (direction s) in
  let ejectSlotWsDirectionVector := enumDirectionToVector ejectSlotWsDirection in
  (vadd ejectSlotWsTile ejectSlotWsDirectionVector, ejectSlotWsDirection).

(** The body of the slot loop, up to the cache write: the target entity
    and matching acceptor slot of one ejector slot, if any. *)
Definition findSlotTarget (map : Vector → option nat) (ents : gmap nat Entity)
    (staticComp : option SC) (s : EjectorSlot) : Result (option (nat * SlotMatch)) :=
  match staticComp with
  | None => Err "staticComp is undefined"
  | Some sc =>
    let '(ejectSlotTargetWsTile, ejectSlotWsDirection) := ejectTarget sc s in
    match map ejectSlotTargetWsTile with
    | None => Ok None                                  (* no consumer *)
    | Some targetEntity =>
      let target := ents !! targetEntity in
      match target ≫= ItemAcceptor with
      | None => Ok None                                (* no acceptor *)
      | Some targetAcceptorComp =>
        match target ≫= StaticMapEntity with
        | None => Err "targetStaticComp is undefined"
        | Some targetStaticComp =>
          match findMatchingSlot targetAcceptorComp
                  (worldToLocalTile targetStaticComp ejectSlotTargetWsTile)
                  (worldDirectionToLocal targetStaticComp ejectSlotWsDirection) with
          | None => Ok None                            (* no matching slot *)
          | Some matchingSlot => Ok (Some (targetEntity, matchingSlot))
          end
        end
      end
    end
  end.

Definition pushConnected (conn : option (list nat)) (i : nat) : option (list nat) :=
  match conn with
  | Some l => Some (l ++ [i])
  | None => Some [i]
  end.

(** The loop over [ejectorComp.slots], starting at index [i]. *)
Fixpoint recomputeSlots (map : Vector → option nat) (ents : gmap nat Entity)
    (staticComp : option SC) (i : nat) (ss : list EjectorSlot)
    (conn : option (list nat)) : Result (list EjectorSlot * option (list nat)) :=
  match ss with
  | [] => Ok ([], conn)
  | s :: rest =>
      r ← findSlotTarget map ents staticComp s;
      let s' := match r with
                | None => slot_clear_cache s
                | Some (te, m) => slot_set_target s te m
                end in
      let conn' := match r with
                   | None => conn
                   | Some _ => pushConnected conn i
                   end in
      '(rest', conn'') ← recomputeSlots map ents staticComp (S i) rest conn';
      Ok (s' :: rest', conn'')
  end.

Definition recomputeSingleEntityCache (w : World) (entity : nat) : Result World :=
  match ejectors w !! entity with
  | None => Err "ejectorComp is undefined"
  | Some ejectorComp =>
      let staticComp := entities w !! entity ≫= StaticMapEntity in
      '(slots', conn) ← recomputeSlots (tileContent w) (entities w) staticComp 0
                          (slots ejectorComp) None;
      Ok (set_ejectors w (<[entity := mkItemEjector slots' conn]> (ejectors w)))
  end.

(** ** recomputeAreaCache and recomputeCache *)

Definition visitTile (st : World * gset nat) (x y : Z) : Result (World * gset nat) :=
  let '(w, recomputedEntities) := st in
  match tileContent w (x, y) with
  | None => Ok st
  | Some entity =>
      if negb (bool_decide (entity ∈ recomputedEntities))
         && bool_decide (is_Some (ejectors w !! entity))
      then w' ← recomputeSingleEntityCache w entity;
           Ok (w', {[entity]} ∪ recomputedEntities)
      else Ok st
  end.

Definition recomputeAreaCache (w : World) (area : Rectangle.t) : Result World :=
  '(w', _) ←
    forRange (Rectangle.x area) (Z.to_nat (Rectangle.right area - Rectangle.x area))
      (λ st x,
         forRange (Rectangle.y area) (Z.to_nat (Rectangle.bottom area - Rectangle.y area))
           (λ st' y, visitTile st' x y) st)
      (w, ∅);
  Ok w'.

Definition recomputeCache (w : World) : Result World :=
  match areaToRecompute w with
  | Some area =>
      w' ← recomputeAreaCache w area;
      Ok (set_area w' None)
  | None => forEach (allEntities w) recomputeSingleEntityCache w
  end.

(** ** tryPassOverItem *)

(** Modelled from the spec: the assert of core/assert.js is not part of the
    sources; a failed assert aborts with an error (the call
    [path.tryAcceptItem] on a null path that follows it would throw as
    well). *)
Definition tryPassOverItem (w : World) (rs : RS) (it : Item) (receiver : nat)
    (slotIndex : nat) : Result (bool * RS) :=
  match entities w !! receiver with
  | None => Err "receiver.components is undefined"
  | Some r =>
    match match Belt r with
          | Some beltComp =>
              match assignedPath beltComp with
              | None => None
              | Some path => Some (path_tryAcceptItem rs path it)
              end
          | None => Some (false, rs)
          end with
    | None => Err "Assertion failed: belt has no path"
    | Some (acceptedByBelt, rs1) =>
    if acceptedByBelt then Ok (true, rs1) else
    if Storage r && storage_canAcceptItem rs1 receiver it
    then Ok (true, storage_takeItem rs1 receiver it) else
    let '(acceptedByProcessor, rs2) :=
      if ItemProcessor r then processor_tryTakeItem rs1 receiver it slotIndex
      else (false, rs1) in
    if acceptedByProcessor then Ok (true, rs2) else
    let '(acceptedByUnderground, rs3) :=
      if UndergroundBelt r
      then underground_tryAcceptExternalItem rs2 receiver it
             (getUndergroundBeltBaseSpeed rs2)
      else (false, rs2) in
    if acceptedByUnderground then Ok (true, rs3) else
    let '(acceptedByGenerator, rs4) :=
      if EnergyGenerator r then generator_tryTakeItem rs3 receiver it
      else (false, rs3) in
    if acceptedByGenerator then Ok (true, rs4) else Ok (false, rs4)
    end
  end.

(** ** update *)

Definition set_progress (s : EjectorSlot) (p : Q) : EjectorSlot :=
  mkEjectorSlot (pos s) (direction s) (item s) p (cachedTargetEntity s)
                (cachedDestSlot s).

Definition set_item (s : EjectorSlot) (i : option Item) : EjectorSlot :=
  mkEjectorSlot (pos s) (direction s) i (progress s) (cachedTargetEntity s)
                (cachedDestSlot s).

(** The body of the inner loop of update for one cached slot. *)
Definition ejectSlot (w : World) (progressGrowth : Q) (rs : RS) (sourceSlot : EjectorSlot)
  : Result (EjectorSlot * RS) :=
  match item sourceSlot with
  | None => Ok (sourceSlot, rs)                 (* no item to eject *)
  | Some it =>
    let s1 := set_progress sourceSlot (Qmin 1 (progress sourceSlot + progressGrowth)) in
    if negb (Qle_bool 1 (progress s1)) then Ok (s1, rs) else   (* progress < 1 *)
    match cachedTargetEntity sourceSlot, cachedDestSlot sourceSlot with
    | Some targetEntity, Some destSlot =>
      match entities w !! targetEntity ≫= ItemAcceptor with
      | None => Err "targetAcceptorComp is undefined"
      | Some _ =>
        if negb (acceptor_canAcceptItem rs targetEntity (index destSlot) it)
        then Ok (s1, rs) else
        match tryPassOverItem w rs it targetEntity (index destSlot) with
        | Err e => Err e
        | Ok (handedOver, rs') =>
          if handedOver
          then Ok (set_item s1 None,
                   acceptor_onItemAccepted rs' targetEntity (index destSlot)
                     (acceptedDirection destSlot) it)
          else Ok (s1, rs')
        end
      end
    | _, _ => Err "cached target is null"
    end
  end.

(** [sourceSlot = cachedConnectedSlots[j]] is the slot object [slots[j]]
    of the entity's component: it is read and written back there. *)
Definition updateSlot (progressGrowth : Q) (entity : nat) (st : World * RS) (j : nat)
  : Result (World * RS) :=
  let '(w, rs) := st in
  match ejectors w !! entity with
  | None => Err "sourceEjectorComp is undefined"
  | Some comp =>
    match slots comp !! j with
    | None => Err "sourceSlot is undefined"
    | Some sourceSlot =>
      '(s', rs') ← ejectSlot w progressGrowth rs sourceSlot;
      Ok (set_ejectors w (<[entity := mkItemEjector (<[j := s']> (slots comp))
                                         (cachedConnectedSlots comp)]> (ejectors w)),
          rs')
    end
  end.

Definition updateEntity (progressGrowth : Q) (st : World * RS) (entity : nat)
  : Result (World * RS) :=
  match ejectors st.1 !! entity with
  | None => Err "sourceEjectorComp is undefined"
  | Some comp =>
    match cachedConnectedSlots comp with
    | None => Ok st
    | Some conn => forEach conn (updateSlot progressGrowth entity) st
    end
  end.

(** One tick.  [progressGrowth] is the tick's shared increment, computed by
    the source from hubGoals.getBeltBaseSpeed(), itemSpacingOnBelts and
    dynamicTickrate.deltaSeconds (or 1 with instantBelts). *)
Definition update (progressGrowth : Q) (st : World * RS) : Result (World * RS) :=
  let '(w, rs) := st in
  w1 ← match areaToRecompute w with
       | Some _ => recomputeCache w
       | None => Ok w
       end;
  forEach (allEntities w1) (updateEntity progressGrowth) (w1, rs).

(** ** The spec's descriptions, as separate definitions to compare with
    the embedded code *)

(** §4.4: the handover capabilities of a receiver, tried in priority order;
    the first that accepts wins, a declining one passes its state on. *)
Definition Capability : Type := RS → bool * RS.

Fixpoint firstAccepting (caps : list Capability) (rs : RS) : bool * RS :=
  match caps with
  | [] => (false, rs)
  | c :: cs => let '(accepted, rs') := c rs in
               if accepted then (true, rs') else firstAccepting cs rs'
  end.

Definition receiverCapabilities (r : Entity) (receiver : nat) (it : Item)
    (slotIndex : nat) : list Capability :=
  (match Belt r ≫= assignedPath with
   | Some path => [λ rs, path_tryAcceptItem rs path it]
   | None => []
   end) ++
  (if Storage r
   then [λ rs, if storage_canAcceptItem rs receiver it
               then (true, storage_takeItem rs receiver it) else (false, rs)]
   else []) ++
  (if ItemProcessor r then [λ rs, processor_tryTakeItem rs receiver it slotIndex] else []) ++
  (if UndergroundBelt r
   then [λ rs, underground_tryAcceptExternalItem rs receiver it
                 (getUndergroundBeltBaseSpeed rs)]
   else []) ++
  (if EnergyGenerator r then [λ rs, generator_tryTakeItem rs receiver it] else []).

(** §4.2: the target of one slot: the tile one step from the slot's world
    position along its world direction, its occupant, the occupant's
    acceptor, and the acceptor's matching slot for the target tile and the
    ejection direction both expressed in the occupant's local space. *)
Definition slotTarget_spec (map : Vector → option nat) (ents : gmap nat Entity)
    (sc : SC) (s : EjectorSlot) : option (nat * SlotMatch) :=
  let wsDir := localDirectionToWorld sc (direction s) in
  let tile := vadd (localTileToWorld sc (pos s)) (enumDirectionToVector wsDir) in
  te ← map tile;
  d ← ents !! te;
  acc ← ItemAcceptor d;
  tsc ← StaticMapEntity d;
  m ← findMatchingSlot acc (worldToLocalTile tsc tile) (worldDirectionToLocal tsc wsDir);
  Some (te, m).

Definition cachedSlot_spec (s : EjectorSlot) (r : option (nat * SlotMatch)) : EjectorSlot :=
  match r with
  | Some (te, m) => slot_set_target s te m
  | None => slot_clear_cache s
  end.

(** The indices, counted from [i], of the slots that found a target. *)
Fixpoint connectedFrom {B : Type} (i : nat) (rs : list (option B)) : list nat :=
  match rs with
  | [] => []
  | Some _ :: rs' => i :: connectedFrom (S i) rs'
  | None :: rs' => connectedFrom (S i) rs'
  end.

(** The cache recomputeSingleEntityCache is specified to build for a
    component, with the connected list left cleared (null) when empty. *)
Definition recomputedComponent_spec (grid : Vector → option nat) (ents : gmap nat Entity)
    (sc : SC) (comp : ItemEjectorComponent) : ItemEjectorComponent :=
  let targets := map (slotTarget_spec grid ents sc) (slots comp) in
  mkItemEjector (zip_with cachedSlot_spec (slots comp) targets)
    (match connectedFrom 0 targets with [] => None | l => Some l end).

(** The connected list after appending the indices [l] to [conn]. *)
Definition mergeConnected (conn : option (list nat)) (l : list nat) : option (list nat) :=
  match l with
  | [] => conn
  | _ => Some (match conn with Some c => c ++ l | None => l end)
  end.

(** §3: a pending area [oa] covers every tile of the rectangle [r]. *)
Definition covers (oa : option Rectangle.t) (r : Rectangle.t) : Prop :=
  ∀ t, Rectangle.containsTile r t = true →
       ∃ a, oa = Some a ∧ Rectangle.containsTile a t = true.

(** The part of a slot the cache recomputation reads and keeps. *)
Definition slot_key (s : EjectorSlot) : Vector * Direction * option Item * Q :=
  (pos s, direction s, item s, progress s).

Definition compKey (c : ItemEjectorComponent) := map slot_key (slots c).

(** The cache of [entity] is what recomputeSingleEntityCache would write. *)
Definition cacheFixed (w : World) (entity : nat) : Prop :=
  ∃ comp, ejectors w !! entity = Some comp ∧
    recomputeSlots (tileContent w) (entities w) (entities w !! entity ≫= StaticMapEntity)
      0 (slots comp) None = Ok (slots comp, cachedConnectedSlots comp).

(** [w'] differs from [w] at most in the caches of its ejector components. *)
Definition sameGrid (w w' : World) : Prop :=
  gameInitialized w' = gameInitialized w ∧ entities w' = entities w ∧
  tileContent w' = tileContent w ∧ allEntities w' = allEntities w ∧
  areaToRecompute w' = areaToRecompute w ∧
  ∀ e, option_map compKey (ejectors w' !! e) = option_map compKey (ejectors w !! e).

(** Every map entity that has an ItemAcceptor has a StaticMapEntity. *)
Definition acceptorsPlaced (grid : Vector → option nat) (ents : gmap nat Entity) : Prop :=
  ∀ t e d, grid t = Some e → ents !! e = Some d →
           is_Some (ItemAcceptor d) → is_Some (StaticMapEntity d).

(** State of the loop of recomputeAreaCache started on [w0]: the world
    differs from [w0] only in the caches of the entities of [seen], each
    recomputed and found on a tile of [area]. *)
Definition areaRunInv (w0 : World) (area : Rectangle.t) (st : World * gset nat) : Prop :=
  sameGrid w0 st.1 ∧
  (∀ e, cacheFixed w0 e → cacheFixed st.1 e) ∧
  (∀ e, e ∈ st.2 → cacheFixed st.1 e ∧
     ∃ t, Rectangle.containsTile area t = true ∧ tileContent w0 t = Some e) ∧
  (∀ e, e ∉ st.2 → ejectors st.1 !! e = ejectors w0 !! e).

(** The ejector entities found on the columns [x0 <= x < x1] and rows
    [y0 <= y < y1] of the map are in [seen]. *)
Definition visited (w0 : World) (x0 x1 y0 y1 : Z) (seen : gset nat) : Prop :=
  ∀ x y e, x0 ≤ x < x1 → y0 ≤ y < y1 → tileContent w0 (x, y) = Some e →
           is_Some (ejectors w0 !! e) → e ∈ seen.

(** The world tile of every slot of [u] lies inside the tile-space bounds
    of [u]. *)
Definition slotsInBounds (w : World) (u : nat) : Prop :=
  ∀ comp sc, ejectors w !! u = Some comp → entities w !! u ≫= StaticMapEntity = Some sc →
  ∀ s, s ∈ slots comp →
       Rectangle.containsTile (getTileSpaceBounds sc) (localTileToWorld sc (pos s)) = true.

(** Some tile of the bounds of [u] lies in the pending area. *)
Definition touched (w : World) (u : nat) : Prop :=
  ∃ sc t a, entities w !! u ≫= StaticMapEntity = Some sc ∧
    Rectangle.containsTile (getTileSpaceBounds sc) t = true ∧
    areaToRecompute w = Some a ∧ Rectangle.containsTile a t = true.

(** The map only holds entities of the heap. *)
Definition mapInHeap (w : World) : Prop :=
  ∀ t u, tileContent w t = Some u → is_Some (entities w !! u).

(** One entity-added or entity-destroyed event on entity [X], while the game
    is initialized: the heap may gain [X], the map changes only on tiles
    inside the bounds of [X], the ejector components other than that of [X]
    are kept, the list of ejector entities may only gain [X]; then the
    system is notified with [X]. *)
Inductive editStep : World → World → Prop :=
| EditStep (w : World) (ents : gmap nat Entity) (ej : gmap nat ItemEjectorComponent)
    (grid : Vector → option nat) (live : list nat) (X : nat) :
    gameInitialized w = true →
    (∀ u d, entities w !! u = Some d → ents !! u = Some d) →
    (∀ u, u ≠ X → ents !! u = entities w !! u) →
    (∀ u, u ≠ X → ej !! u = ejectors w !! u) →
    (∀ t, grid t ≠ tileContent w t →
          ∃ sc, ents !! X ≫= StaticMapEntity = Some sc ∧
                Rectangle.containsTile (getTileSpaceBounds sc) t = true) →
    (∀ u, u ∈ live → u ∈ allEntities w ∨ u = X) →
    (∀ t u, grid t = Some u → is_Some (ents !! u)) →
    editStep w (checkForCacheInvalidation
                  (mkWorld true ents ej grid live (areaToRecompute w)) X).

(** Invariant of a sequence of edits: every ejector entity with a
    non-empty placement whose slots lie in its bounds either has a fixed
    cache or touches the pending area. *)
Definition editInv (w : World) : Prop :=
  mapInHeap w ∧
  ∀ u, u ∈ allEntities w → slotsInBounds w u →
    (∃ sc t, entities w !! u ≫= StaticMapEntity = Some sc ∧
             Rectangle.containsTile (getTileSpaceBounds sc) t = true) →
    touched w u ∨ cacheFixed w u.

(** [update] called once per tick, with the tick's progress growth. *)
Fixpoint ticks (growths : list Q) (st : World * RS) : Result (World * RS) :=
  match growths with
  | [] => Ok st
  | g :: gs => st' ← update g st; ticks gs st'
  end.

(** Slot [j] of the ejector of [u] exists and either still holds [it] with
    progress 1, or is empty. *)
Definition slotHolds (it : Item) (w : World) (u j : nat) : Prop :=
  ∃ c s, ejectors w !! u = Some c ∧ slots c !! j = Some s ∧
    ((item s = Some it ∧ (progress s == 1)%Q) ∨ item s = None).

(** The world with another map. *)
Definition set_tileContent (w : World) (grid : Vector → option nat) : World :=
  mkWorld (gameInitialized w) (entities w) (ejectors w) grid (allEntities w)
          (areaToRecompute w).

(** ** drawSingleEntity *)

Context {DP : Type} `{!Drawing SC DP}.

(** A call [ejectedItem.draw(worldX, worldY, parameters)]. *)
Record DrawCall := mkDrawCall {
  drawnItem : Item;
  drawnX : Q;
  drawnY : Q
}.

(** The loop over [ejectorComp.slots]: the draw calls, in slot order. *)
Fixpoint drawSlots (staticComp : SC) (ss : list EjectorSlot) : list DrawCall :=
  match ss with
  | [] => []
  | slot :: rest =>
    match item slot with
    | None => drawSlots staticComp rest                   (* no item *)
    | Some ejectedItem =>
      let realPosition := rotateFastMultipleOf90 (pos slot) (rotation staticComp) in
      let realDirection :=
        transformDirectionFromMultipleOf90 (direction slot) (rotation staticComp) in
      let realDirectionVector := enumDirectionToVector realDirection in
      let tileX := inject_Z (origin staticComp).1 + inject_Z realPosition.1 + (1 # 2)
                   + inject_Z realDirectionVector.1 * (1 # 2) * progress slot in
      let tileY := inject_Z (origin staticComp).2 + inject_Z realPosition.2 + (1 # 2)
                   + inject_Z realDirectionVector.2 * (1 # 2) * progress slot in
      mkDrawCall ejectedItem (tileX * tileSize) (tileY * tileSize)
        :: drawSlots staticComp rest
    end
  end%Q.

Definition drawSingleEntity (w : World) (parameters : DP) (entity : nat)
  : Result (list DrawCall) :=
  match entities w !! entity ≫= StaticMapEntity with
  | None => Err "staticComp is undefined"
  | Some staticComp =>
    if negb (shouldBeDrawn staticComp parameters) then Ok [] else
    match ejectors w !! entity with
    | None => Err "ejectorComp is undefined"
    | Some ejectorComp => Ok (drawSlots staticComp (slots ejectorComp))
    end
  end.

(** ** Views used by the properties *)

(** The part of a slot that a tick must leave alone: everything but its
    item and progress. *)
Definition slot_cache (s : EjectorSlot) : Vector * Direction * option nat * option SlotMatch :=
  (pos s, direction s, cachedTargetEntity s, cachedDestSlot s).

Definition compCache (c : ItemEjectorComponent) : option (list nat) * list _ :=
  (cachedConnectedSlots c, map slot_cache (slots c)).

(** Every index in the connected list of [u] is a slot whose cached target
    and destination are set, the target being an entity with an acceptor. *)
Definition connectedSound (w : World) (u : nat) : Prop :=
  ∃ comp, ejectors w !! u = Some comp ∧
    ∀ j, j ∈ default [] (cachedConnectedSlots comp) →
      ∃ s te dst d, slots comp !! j = Some s ∧ cachedTargetEntity s = Some te ∧
        cachedDestSlot s = Some dst ∧ entities w !! te = Some d ∧ is_Some (ItemAcceptor d).

(** [w1] differs from [w] at most in the items and progress of ejector
    slots. *)
Definition tickFrame (w w1 : World) : Prop :=
  gameInitialized w1 = gameInitialized w ∧ entities w1 = entities w ∧
  tileContent w1 = tileContent w ∧ allEntities w1 = allEntities w ∧
  areaToRecompute w1 = areaToRecompute w ∧
  ∀ u, option_map compCache (ejectors w1 !! u) = option_map compCache (ejectors w !! u).

(** Every belt of the heap has been assigned a path. *)
Definition beltsHavePaths (w : World) : Prop :=
  ∀ u d bc, entities w !! u = Some d → Belt d = Some bc → is_Some (assignedPath bc).

End ItemEjectorSystem.

(** ** A small concrete instantiation, used to evaluate the definitions at
    concrete inputs: unrotated one-tile entities placed at their origin,
    acceptors given by a list of (local tile, accepted-from direction)
    slots, items and belt paths named by numbers, and receivers that accept
    everything and log what they take. *)
Module Demo.

Global Instance Direction_eq_dec : EqDecision Direction.
Proof. solve_decision. Defined.

#[export] Instance placement : Placement Vector := {|
  localTileToWorld o p := vadd o p;
  localDirectionToWorld _ d := d;
  worldToLocalTile o t := (t.1 - o.1, t.2 - o.2);
  worldDirectionToLocal _ d := d;
  getTileSpaceBounds o := Rectangle.mk o.1 o.2 1 1
|}.

Definition invertDirection (d : Direction) : Direction :=
  match d with
  | Dtop => Dbottom | Dright => Dleft | Dbottom => Dtop | Dleft => Dright
  end.

Fixpoint findSlotFrom (i : nat) (acc : list (Vector * Direction))
    (tile : Vector) (d : Direction) : option SlotMatch :=
  match acc with
  | [] => None
  | (p, from) :: rest =>
      if bool_decide (p = tile) && bool_decide (from = invertDirection d)
      then Some (mkSlotMatch i from)
      else findSlotFrom (S i) rest tile d
  end.

#[export] Instance acceptorQuery : AcceptorQuery (list (Vector * Direction)) := {|
  findMatchingSlot acc tile d := findSlotFrom 0 acc tile d
|}.

(** Receiver state: a log of (receiver, item) handovers. *)
Definition Log : Type := list (nat * nat).

#[export] Instance receivers : Receivers Log nat nat := {|
  acceptor_canAcceptItem _ _ _ _ := true;
  acceptor_onItemAccepted rs _ _ _ _ := rs;
  path_tryAcceptItem rs p it := (true, (p, it) :: rs);
  storage_canAcceptItem _ _ _ := true;
  storage_takeItem rs u it := (u, it) :: rs;
  processor_tryTakeItem rs u it _ := (true, (u, it) :: rs);
  underground_tryAcceptExternalItem rs u it _ := (true, (u, it) :: rs);
  generator_tryTakeItem rs u it := (true, (u, it) :: rs);
  getUndergroundBeltBaseSpeed _ := 1%Q
|}.

Abbreviation DWorld := (@World Vector (list (Vector * Direction)) nat nat).

(** Entity 1: an ejector at (0,0) whose slot ejects to the right.
    Entity 2: a storage at (1,0) accepting from the left. *)
Definition ejectorEntity : @Entity Vector (list (Vector * Direction)) nat :=
  mkEntity (Some (0, 0)) None None false false false false.
Definition storageEntity : @Entity Vector (list (Vector * Direction)) nat :=
  mkEntity (Some (1, 0)) (Some [((0, 0), Dleft)]) None true false false false.

Definition slot0 (it : option nat) (p : Q) : @EjectorSlot nat :=
  mkEjectorSlot (0, 0) Dright it p None None.

Definition map12 (t : Vector) : option nat :=
  if bool_decide (t = (0, 0)) then Some 1%nat
  else if bool_decide (t = (1, 0)) then Some 2%nat else None.

Definition world12 (it : option nat) (p : Q) : DWorld :=
  mkWorld true (<[1%nat := ejectorEntity]> (<[2%nat := storageEntity]> ∅))
    (<[1%nat := mkItemEjector [slot0 it p] None]> ∅) map12 [1%nat] None.

(** Entity 2 removed from the map (destroyed); entity 1 keeps its slot. *)
Definition map1 (t : Vector) : option nat :=
  if bool_decide (t = (0, 0)) then Some 1%nat else None.

Definition ents12 : gmap nat (@Entity Vector (list (Vector * Direction)) nat) :=
  <[1%nat := ejectorEntity]> (<[2%nat := storageEntity]> ∅).

(** Slot 0 of entity 1 once its cache points to slot 0 of entity 2. *)
Definition cachedSlot0 (it : option nat) (p : Q) : @EjectorSlot nat :=
  mkEjectorSlot (0, 0) Dright it p (Some 2%nat) (Some (mkSlotMatch 0 Dleft)).

Definition cachedComp (it : option nat) (p : Q) : @ItemEjectorComponent nat :=
  mkItemEjector [cachedSlot0 it p] (Some [0%nat]).

(** Both entities on the map, the cache of entity 1 computed. *)
Definition world12_cached (init : bool) (it : option nat) (p : Q) : DWorld :=
  mkWorld init ents12 (<[1%nat := cachedComp it p]> ∅) map12 [1%nat] None.

(** Entity 2 gone from the map, the cache of entity 1 still pointing to it. *)
Definition world1_stale (init : bool) (it : option nat) (p : Q) : DWorld :=
  mkWorld init ents12 (<[1%nat := cachedComp it p]> ∅) map1 [1%nat] None.

(** Entity 1 alone on the map, its component as built (cache cleared). *)
Definition world1_fresh : DWorld :=
  mkWorld true ents12 (<[1%nat := mkItemEjector [slot0 None 0] None]> ∅) map1 [1%nat] None.

(** Entity 3: a belt at (1,0) accepting from the left, with no path. *)
Definition beltEntity : @Entity Vector (list (Vector * Direction)) nat :=
  mkEntity (Some (1, 0)) (Some [((0, 0), Dleft)]) (Some (mkBelt None)) false false false false.

Definition world_belt : DWorld :=
  mkWorld true (<[3%nat := beltEntity]> ents12) ∅ map12 [] None.

(** [world12_cached true None 0] after entity 2 is removed from the map
    and the system is notified. *)
Definition world1_removed : DWorld :=
  checkForCacheInvalidation
    (mkWorld true ents12 (<[1%nat := cachedComp None 0]> ∅) map1 [1%nat] None) 2.

(** Drawing: entities are not rotated, a tile is 32 units wide. *)
#[export] Instance drawing : Drawing Vector unit := {|
  origin o := o;
  rotation _ := 0;
  shouldBeDrawn _ _ := true;
  rotateFastMultipleOf90 v _ := v;
  transformDirectionFromMultipleOf90 d _ := d;
  tileSize := 32 # 1
|}.

(** Entity 4: an ejector with one slot but no StaticMapEntity. *)
Definition unplacedEntity : @Entity Vector (list (Vector * Direction)) nat :=
  mkEntity None None None false false false false.

Definition world_unplaced : DWorld :=
  mkWorld true (<[4%nat := unplacedEntity]> ents12)
    (<[4%nat := mkItemEjector [slot0 None 0] None]> ∅) map12 [4%nat] None.

End Demo.

(** * Properties *)

Section Properties.

Context {SC AC Item Path RS : Type}.
Context `{!Placement SC} `{!AcceptorQuery AC} `{!Receivers RS Item Path}.

Local Abbreviation World := (@World SC AC Item Path).
Local Abbreviation Entity := (@Entity SC AC Path).
Local Abbreviation EjectorSlot := (@EjectorSlot Item).
Local Abbreviation ItemEjectorComponent := (@ItemEjectorComponent Item).

(** C10: when the game is not initialized, or the entity has no
    StaticMapEntity, a notification changes nothing, in particular not the
    pending area. *)
Theorem checkForCacheInvalidation_ignored (w : World) (entity : nat) :
  (gameInitialized w = false ∨ entities w !! entity ≫= StaticMapEntity = None) →
  checkForCacheInvalidation w entity = w ∧
  areaToRecompute (checkForCacheInvalidation w entity) = areaToRecompute w.
Proof.
  intros Hcase.
  assert (checkForCacheInvalidation w entity = w) as E.
  { unfold checkForCacheInvalidation.
    destruct Hcase as [H | H]; [rewrite H; reflexivity |].
    destruct (gameInitialized w); simpl; [rewrite H|]; reflexivity. }
  rewrite E. split; reflexivity.
Qed.

(** C8: a receiver with a Belt whose assignedPath is null aborts the
    handover with the assertion error, before any capability is tried. *)
Theorem tryPassOverItem_belt_without_path (w : World) (rs : RS) (it : Item)
    (receiver slotIndex : nat) (r : Entity) (bc : BeltComponent) :
  entities w !! receiver = Some r → Belt r = Some bc → assignedPath bc = None →
  tryPassOverItem w rs it receiver slotIndex = Err "Assertion failed: belt has no path".
Proof.
  intros Hr Hb Hp. unfold tryPassOverItem. rewrite Hr, Hb, Hp. reflexivity.
Qed.

(** C5: tryPassOverItem tries belt path, storage, item processor,
    underground belt (with hubGoals' underground speed) and energy
    generator in this order, answers true with the first that accepts and
    false, without error, when none does. *)
Theorem tryPassOverItem_priority (w : World) (rs : RS) (it : Item)
    (receiver slotIndex : nat) (r : Entity) :
  entities w !! receiver = Some r →
  (∀ bc, Belt r = Some bc → is_Some (assignedPath bc)) →
  tryPassOverItem w rs it receiver slotIndex
  = Ok (firstAccepting (receiverCapabilities r receiver it slotIndex) rs).
Proof.
  intros Hr Hbelt. unfold tryPassOverItem, receiverCapabilities. rewrite Hr.
  assert (match Belt r with
          | Some beltComp => match assignedPath beltComp with
                             | Some path => Some (path_tryAcceptItem rs path it)
                             | None => None end
          | None => Some (false, rs) end
          = Some (match Belt r ≫= assignedPath with
                  | Some path => path_tryAcceptItem rs path it
                  | None => (false, rs) end)) as ->.
  { destruct (Belt r) as [bc|]; [|reflexivity].
    destruct (Hbelt bc eq_refl) as [p Hp]. simpl. rewrite Hp. reflexivity. }
  destruct (Belt r ≫= assignedPath) as [p|]; simpl;
  [destruct (path_tryAcceptItem rs p it) as [[|] rs1]; [reflexivity|] | set (rs1 := rs)];
  destruct (Storage r), (ItemProcessor r), (UndergroundBelt r), (EnergyGenerator r);
  simpl; repeat (case_match; simpl in *; simplify_eq); reflexivity.
Qed.

(** ** Recomputing one entity *)

Lemma findSlotTarget_spec (grid : Vector → option nat) (ents : gmap nat Entity)
    (sc : SC) (s : EjectorSlot) :
  (∀ t e d, grid t = Some e → ents !! e = Some d →
            is_Some (ItemAcceptor d) → is_Some (StaticMapEntity d)) →
  findSlotTarget grid ents (Some sc) s = Ok (slotTarget_spec grid ents sc s).
Proof.
  intros Hwf. unfold findSlotTarget, slotTarget_spec, ejectTarget. simpl.
  destruct (grid _) as [te|] eqn:Ht; [|reflexivity]. simpl.
  destruct (ents !! te) as [d|] eqn:Hd; [|reflexivity]. simpl.
  destruct (ItemAcceptor d) as [acc|] eqn:Ha; [|reflexivity]. simpl.
  destruct (StaticMapEntity d) as [tsc|] eqn:Hs.
  - simpl. destruct (findMatchingSlot _ _ _); reflexivity.
  - exfalso. destruct (Hwf _ _ _ Ht Hd) as [x Hx]; [rewrite Ha; eauto|].
    congruence.
Qed.

Lemma recomputeSlots_spec (grid : Vector → option nat) (ents : gmap nat Entity)
    (sc : SC) (i : nat) (ss : list EjectorSlot) (conn : option (list nat)) :
  (∀ t e d, grid t = Some e → ents !! e = Some d →
            is_Some (ItemAcceptor d) → is_Some (StaticMapEntity d)) →
  recomputeSlots grid ents (Some sc) i ss conn
  = Ok (zip_with cachedSlot_spec ss (map (slotTarget_spec grid ents sc) ss),
        mergeConnected conn (connectedFrom i (map (slotTarget_spec grid ents sc) ss))).
Proof.
  intros Hwf. revert i conn. induction ss as [|s ss IH]; intros i conn; [reflexivity|].
  cbn [recomputeSlots]. rewrite findSlotTarget_spec by exact Hwf. simpl.
  destruct (slotTarget_spec grid ents sc s) as [[te m]|] eqn:Hst; simpl.
  - rewrite IH. simpl. f_equal. f_equal.
    unfold mergeConnected, pushConnected.
    destruct (connectedFrom (S i) _) as [|k l]; destruct conn as [c|]; simpl;
      rewrite ?app_nil_r, <- ?app_assoc; reflexivity.
  - rewrite IH. reflexivity.
Qed.

(** C4: recomputeSingleEntityCache replaces the entity's component by the
    one §4.2 describes: every slot's cache cleared, then for each slot the
    target tile (world slot tile plus the unit vector of the world
    direction), its occupant, the occupant's acceptor and its matching slot
    (queried in the occupant's local space); a slot with a match is
    appended to cachedConnectedSlots and caches the target entity and
    matching slot, any other slot keeps a cleared cache. *)
Theorem recomputeSingleEntityCache_spec (w : World) (entity : nat)
    (comp : ItemEjectorComponent) (sc : SC) :
  ejectors w !! entity = Some comp →
  entities w !! entity ≫= StaticMapEntity = Some sc →
  (∀ t e d, tileContent w t = Some e → entities w !! e = Some d →
            is_Some (ItemAcceptor d) → is_Some (StaticMapEntity d)) →
  recomputeSingleEntityCache w entity
  = Ok (set_ejectors w (<[entity := recomputedComponent_spec (tileContent w) (entities w) sc comp]>
                          (ejectors w))).
Proof.
  intros Hc Hs Hwf. unfold recomputeSingleEntityCache. rewrite Hc, Hs.
  rewrite recomputeSlots_spec by exact Hwf. simpl.
  unfold recomputedComponent_spec, mergeConnected.
  destruct (connectedFrom 0 _); reflexivity.
Qed.

Lemma recomputeSlots_connected (grid : Vector → option nat) (ents : gmap nat Entity)
    (osc : option SC) (i : nat) (ss : list EjectorSlot) (conn : option (list nat))
    (ss' : list EjectorSlot) (conn' : option (list nat)) :
  recomputeSlots grid ents osc i ss conn = Ok (ss', conn') →
  (conn ≠ Some [] → conn' ≠ Some []) ∧
  (conn' = None ↔ conn = None ∧ Forall (λ s, cachedTargetEntity s = None) ss').
Proof.
  revert i conn ss' conn'. induction ss as [|s ss IH]; intros i conn ss' conn' H.
  - simpl in H. simplify_eq. split; [done|]. split; [intros ->; auto | intros [-> _]; done].
  - simpl in H. destruct (findSlotTarget grid ents osc s) as [r|] eqn:Hf; [|discriminate].
    simpl in H.
    destruct (recomputeSlots grid ents osc (S i) ss _) as [[rest' conn'']|] eqn:Hr;
      [|discriminate].
    simpl in H. simplify_eq.
    destruct (IH _ _ _ _ Hr) as [Hne Hnone].
    destruct r as [[te m]|]; simpl in *.
    + assert (conn' ≠ None) as Hnn.
      { intros ->. destruct Hnone as [Hn _]. destruct (Hn eq_refl) as [Hp _].
        unfold pushConnected in Hp. destruct conn; discriminate. }
      split.
      * intros _. apply Hne. unfold pushConnected. destruct conn as [c|]; [|done].
        intros Heq. injection Heq. destruct c; discriminate.
      * split; [intros; contradiction | intros [_ HF]; inversion HF; discriminate].
    + split; [exact Hne|].
      rewrite Hnone. rewrite Forall_cons. simpl. tauto.
Qed.

(** C6 (as amended): after recomputeSingleEntityCache, cachedConnectedSlots
    is never an empty list: it is null exactly when no slot has a cached
    target (an ejector with zero slots or zero connections), the value the
    recomputation writes to clear the cache, and otherwise the non-empty
    list of connected slots. *)
Theorem recomputeSingleEntityCache_connected_null (w w' : World) (entity : nat)
    (comp' : ItemEjectorComponent) :
  recomputeSingleEntityCache w entity = Ok w' →
  ejectors w' !! entity = Some comp' →
  cachedConnectedSlots comp' ≠ Some [] ∧
  (cachedConnectedSlots comp' = None ↔
   Forall (λ s, cachedTargetEntity s = None) (slots comp')).
Proof.
  unfold recomputeSingleEntityCache. intros H Hl.
  destruct (ejectors w !! entity) as [comp|]; [|discriminate].
  destruct (recomputeSlots _ _ _ 0 (slots comp) None) as [[ss conn]|] eqn:Hr;
    simpl in H; [|discriminate].
  injection H as <-. simpl in Hl. rewrite lookup_insert_eq in Hl.
  injection Hl as <-. simpl.
  destruct (recomputeSlots_connected _ _ _ _ _ _ _ _ Hr) as [A B].
  split; [apply A; discriminate|]. rewrite B. tauto.
Qed.

(** ** The pending area *)

Lemma getUnion_contains_l (a b : Rectangle.t) (t : Vector) :
  Rectangle.containsTile a t = true →
  Rectangle.containsTile (Rectangle.getUnion a b) t = true.
Proof.
  unfold Rectangle.containsTile, Rectangle.getUnion, Rectangle.fromMinMax,
    Rectangle.right, Rectangle.bottom. simpl.
  rewrite !andb_true_iff, !Z.leb_le, !Z.ltb_lt. lia.
Qed.

Lemma getUnion_contains_r (a b : Rectangle.t) (t : Vector) :
  Rectangle.containsTile b t = true →
  Rectangle.containsTile (Rectangle.getUnion a b) t = true.
Proof.
  unfold Rectangle.containsTile, Rectangle.getUnion, Rectangle.fromMinMax,
    Rectangle.right, Rectangle.bottom. simpl.
  rewrite !andb_true_iff, !Z.leb_le, !Z.ltb_lt. lia.
Qed.

Lemma checkForCacheInvalidation_frame (w : World) (e : nat) :
  gameInitialized (checkForCacheInvalidation w e) = gameInitialized w ∧
  entities (checkForCacheInvalidation w e) = entities w.
Proof.
  unfold checkForCacheInvalidation.
  destruct (gameInitialized w) eqn:Hg; simpl; [|auto].
  destruct (entities w !! e ≫= StaticMapEntity); [|auto].
  destruct (areaToRecompute w); simpl; auto.
Qed.

Lemma checkForCacheInvalidation_covers_mono (w : World) (e : nat) (r : Rectangle.t) :
  covers (areaToRecompute w) r →
  covers (areaToRecompute (checkForCacheInvalidation w e)) r.
Proof.
  intros Hc t Ht. destruct (Hc t Ht) as (a & Ha & Hat).
  unfold checkForCacheInvalidation.
  destruct (gameInitialized w); [|eauto]. simpl.
  destruct (entities w !! e ≫= StaticMapEntity); [|eauto].
  rewrite Ha. simpl. eexists; split; [reflexivity|]. by apply getUnion_contains_l.
Qed.

Lemma checkForCacheInvalidation_covers_new (w : World) (e : nat) (sc : SC) :
  gameInitialized w = true →
  entities w !! e ≫= StaticMapEntity = Some sc →
  covers (areaToRecompute (checkForCacheInvalidation w e))
         (Rectangle.expandedInAllDirections (getTileSpaceBounds sc) 2).
Proof.
  intros Hi Hs t Ht. unfold checkForCacheInvalidation. rewrite Hi, Hs. simpl.
  destruct (areaToRecompute w); simpl; (eexists; split; [reflexivity|]);
    [by apply getUnion_contains_r | exact Ht].
Qed.

Lemma notify_covers_mono (w : World) (es : list nat) (r : Rectangle.t) :
  covers (areaToRecompute w) r →
  covers (areaToRecompute (foldl checkForCacheInvalidation w es)) r.
Proof.
  revert w. induction es as [|e es IH]; intros w Hc; [exact Hc|].
  simpl. apply IH. by apply checkForCacheInvalidation_covers_mono.
Qed.

(** C7 (as amended): while the game is initialized, a sequence of
    notifications keeps covering what the pending area covered and adds,
    for every notified entity with a StaticMapEntity, its tile-space bounds
    expanded by 2 on every side: the single pending rectangle covers the
    union of all of them. *)
Theorem notify_sequence_covers (w : World) (es : list nat) :
  gameInitialized w = true →
  (∀ a, areaToRecompute w = Some a →
        covers (areaToRecompute (foldl checkForCacheInvalidation w es)) a) ∧
  (∀ e sc, e ∈ es → entities w !! e ≫= StaticMapEntity = Some sc →
     covers (areaToRecompute (foldl checkForCacheInvalidation w es))
            (Rectangle.expandedInAllDirections (getTileSpaceBounds sc) 2)).
Proof.
  intros Hi. split.
  - intros a Ha. apply notify_covers_mono. intros t Ht. eauto.
  - revert w Hi. induction es as [|e0 es IH]; intros w Hi e sc He Hs;
      [apply elem_of_nil in He; contradiction|].
    simpl. apply elem_of_cons in He as [-> | He].
    + apply notify_covers_mono. by apply checkForCacheInvalidation_covers_new.
    + destruct (checkForCacheInvalidation_frame w e0) as [Hg He0].
      refine (IH (checkForCacheInvalidation w e0) _ e sc He _);
        [rewrite Hg; exact Hi | rewrite He0; exact Hs].
Qed.

(** ** Recomputation only rewrites caches *)

Lemma slot_key_eq (s1 s2 : EjectorSlot) :
  slot_key s1 = slot_key s2 →
  pos s1 = pos s2 ∧ direction s1 = direction s2 ∧ item s1 = item s2 ∧
  progress s1 = progress s2.
Proof. unfold slot_key. intros H. simplify_eq. auto. Qed.

Lemma recomputeSlots_key (grid : Vector → option nat) (ents : gmap nat Entity)
    (osc : option SC) (ss1 ss2 : list EjectorSlot) :
  map slot_key ss1 = map slot_key ss2 →
  ∀ i conn, recomputeSlots grid ents osc i ss1 conn = recomputeSlots grid ents osc i ss2 conn.
Proof.
  revert ss2. induction ss1 as [|s1 ss1 IH]; intros [|s2 ss2] Hk i conn;
    simpl in Hk; try discriminate; [reflexivity|].
  injection Hk as Hp Hd Hi Hq Hks.
  assert (Hf : findSlotTarget grid ents osc s1 = findSlotTarget grid ents osc s2).
  { unfold findSlotTarget, ejectTarget. rewrite Hp, Hd. reflexivity. }
  assert (Hc : slot_clear_cache s1 = slot_clear_cache s2).
  { unfold slot_clear_cache. congruence. }
  assert (Hs : ∀ te m, slot_set_target s1 te m = slot_set_target s2 te m).
  { intros. unfold slot_set_target. congruence. }
  cbn [recomputeSlots]. rewrite Hf.
  destruct (findSlotTarget grid ents osc s2) as [[[te m]|]|e]; simpl;
    [rewrite Hs|rewrite Hc|reflexivity]; rewrite (IH ss2 Hks); reflexivity.
Qed.

Lemma recomputeSlots_keys_out (grid : Vector → option nat) (ents : gmap nat Entity)
    (osc : option SC) (i : nat) (ss : list EjectorSlot) (conn : option (list nat))
    (ss' : list EjectorSlot) (conn' : option (list nat)) :
  recomputeSlots grid ents osc i ss conn = Ok (ss', conn') →
  map slot_key ss' = map slot_key ss.
Proof.
  revert i conn ss' conn'. induction ss as [|s ss IH]; intros i conn ss' conn' H.
  - simpl in H. simplify_eq. reflexivity.
  - simpl in H. destruct (findSlotTarget grid ents osc s) as [r|]; [|discriminate].
    simpl in H.
    destruct (recomputeSlots grid ents osc (S i) ss _) as [[rest' conn'']|] eqn:Hr;
      [|discriminate].
    simpl in H. simplify_eq. simpl. rewrite (IH _ _ _ _ Hr).
    destruct r as [[te m]|]; reflexivity.
Qed.

Lemma recomputeSlots_idem (grid : Vector → option nat) (ents : gmap nat Entity)
    (osc : option SC) (i : nat) (ss : list EjectorSlot) (conn : option (list nat))
    (ss' : list EjectorSlot) (conn' : option (list nat)) :
  recomputeSlots grid ents osc i ss conn = Ok (ss', conn') →
  recomputeSlots grid ents osc i ss' conn = Ok (ss', conn').
Proof.
  intros H. rewrite (recomputeSlots_key grid ents osc ss' ss); [exact H|].
  eapply recomputeSlots_keys_out; exact H.
Qed.

Lemma recomputeSingle_shape (w w' : World) (v : nat) :
  recomputeSingleEntityCache w v = Ok w' →
  ∃ comp ss conn,
    ejectors w !! v = Some comp ∧
    recomputeSlots (tileContent w) (entities w) (entities w !! v ≫= StaticMapEntity)
      0 (slots comp) None = Ok (ss, conn) ∧
    w' = set_ejectors w (<[v := mkItemEjector ss conn]> (ejectors w)).
Proof.
  unfold recomputeSingleEntityCache. intros H.
  destruct (ejectors w !! v) as [comp|]; [|discriminate].
  destruct (recomputeSlots _ _ _ 0 (slots comp) None) as [[ss conn]|] eqn:Hr;
    simpl in H; [|discriminate].
  injection H as <-. eauto 10.
Qed.

Lemma cacheFixed_recompute (w : World) (v : nat) :
  cacheFixed w v → recomputeSingleEntityCache w v = Ok w.
Proof.
  intros (comp & Hc & Hr). unfold recomputeSingleEntityCache. rewrite Hc, Hr. simpl.
  destruct comp as [ss conn]. simpl. rewrite insert_id by exact Hc.
  destruct w; reflexivity.
Qed.

Lemma recomputeSingle_step (w w' : World) (v : nat) :
  recomputeSingleEntityCache w v = Ok w' →
  sameGrid w w' ∧ cacheFixed w' v ∧
  (∀ e, e ≠ v → ejectors w' !! e = ejectors w !! e) ∧
  (∀ e, cacheFixed w e → cacheFixed w' e).
Proof.
  intros H. destruct (recomputeSingle_shape _ _ _ H) as (comp & ss & conn & Hc & Hr & ->).
  assert (Hfix : cacheFixed (set_ejectors w (<[v:=mkItemEjector ss conn]> (ejectors w))) v).
  { exists (mkItemEjector ss conn). simpl. rewrite lookup_insert_eq. split; [reflexivity|].
    eapply recomputeSlots_idem; exact Hr. }
  split; [|split; [exact Hfix|split]].
  - unfold sameGrid; simpl. do 5 (split; [reflexivity|]). intros e.
    destruct (decide (e = v)) as [->|Hne].
    + rewrite lookup_insert_eq, Hc. simpl. unfold compKey. simpl.
      f_equal. eapply recomputeSlots_keys_out; exact Hr.
    + rewrite lookup_insert_ne by congruence. reflexivity.
  - intros e Hne. simpl. rewrite lookup_insert_ne by congruence. reflexivity.
  - intros e He. destruct (decide (e = v)) as [->|Hne]; [exact Hfix|].
    destruct He as (c & Hce & Hre). exists c. simpl.
    rewrite lookup_insert_ne by congruence. auto.
Qed.

Lemma sameGrid_refl (w : World) : sameGrid w w.
Proof. unfold sameGrid. repeat split; reflexivity. Qed.

Lemma sameGrid_trans (w1 w2 w3 : World) :
  sameGrid w1 w2 → sameGrid w2 w3 → sameGrid w1 w3.
Proof.
  unfold sameGrid. intros (A1 & A2 & A3 & A4 & A5 & A6) (B1 & B2 & B3 & B4 & B5 & B6).
  do 5 (split; [congruence|]). intros e. rewrite B6. apply A6.
Qed.

(** Two fixed caches over the same grid, of components with the same
    slots, are equal. *)
Lemma cacheFixed_unique (w1 w2 : World) (e : nat) (c1 c2 : ItemEjectorComponent) :
  tileContent w1 = tileContent w2 → entities w1 = entities w2 →
  ejectors w1 !! e = Some c1 → ejectors w2 !! e = Some c2 →
  compKey c1 = compKey c2 →
  cacheFixed w1 e → cacheFixed w2 e → c1 = c2.
Proof.
  intros Ht Hen H1 H2 Hk (c1' & H1' & Hr1) (c2' & H2' & Hr2).
  rewrite H1 in H1'. rewrite H2 in H2'. simplify_eq.
  rewrite Ht, Hen in Hr1.
  rewrite (recomputeSlots_key _ _ _ (slots c1') (slots c2') Hk) in Hr1.
  rewrite Hr2 in Hr1. simplify_eq.
  destruct c1', c2'; simpl in *; congruence.
Qed.

Lemma sameGrid_is_Some (w w' : World) (e : nat) :
  sameGrid w w' → is_Some (ejectors w' !! e) ↔ is_Some (ejectors w !! e).
Proof.
  intros (_ & _ & _ & _ & _ & H6). specialize (H6 e).
  destruct (ejectors w' !! e), (ejectors w !! e); simpl in *; try discriminate;
    split; intros; eauto; by destruct H.
Qed.

Lemma recomputeSingle_ok (w : World) (e : nat) :
  is_Some (ejectors w !! e) → is_Some (entities w !! e ≫= StaticMapEntity) →
  acceptorsPlaced (tileContent w) (entities w) →
  ∃ w', recomputeSingleEntityCache w e = Ok w'.
Proof.
  intros [c Hc] [sc Hs] Hwf. unfold recomputeSingleEntityCache. rewrite Hc, Hs.
  rewrite recomputeSlots_spec by exact Hwf. simpl. eauto.
Qed.

(** ** The loop of recomputeAreaCache *)

Lemma range_iff (lo hi x : Z) :
  lo ≤ x < lo + Z.of_nat (Z.to_nat (hi - lo)) ↔ lo ≤ x < hi.
Proof. lia. Qed.

Lemma containsTile_iff (r : Rectangle.t) (p : Vector) :
  Rectangle.containsTile r p = true ↔
  Rectangle.x r ≤ p.1 < Rectangle.right r ∧ Rectangle.y r ≤ p.2 < Rectangle.bottom r.
Proof.
  unfold Rectangle.containsTile. rewrite !andb_true_iff, !Z.leb_le, !Z.ltb_lt. tauto.
Qed.

Lemma forRange_ind {St : Type} (P : Z → St → Prop) (lo : Z) (n : nat)
    (f : St → Z → Result St) (s s' : St) :
  P lo s →
  (∀ x s1 s2, lo ≤ x < lo + Z.of_nat n → P x s1 → f s1 x = Ok s2 → P (x + 1) s2) →
  forRange lo n f s = Ok s' → P (lo + Z.of_nat n) s'.
Proof.
  revert lo s. induction n as [|n IH]; intros lo s HP Hstep H; simpl in H.
  - injection H as <-. rewrite Z.add_0_r. exact HP.
  - destruct (f s lo) as [s1|] eqn:Hf; simpl in H; [|discriminate].
    replace (lo + Z.of_nat (S n)) with ((lo + 1) + Z.of_nat n) by lia.
    apply (IH (lo + 1) s1); [apply (Hstep lo s s1); [lia|exact HP|exact Hf]| |exact H].
    intros x s2 s3 Hx. apply Hstep. lia.
Qed.

Lemma forRange_ok {St : Type} (P : Z → St → Prop) (lo : Z) (n : nat)
    (f : St → Z → Result St) (s : St) :
  P lo s →
  (∀ x s1, lo ≤ x < lo + Z.of_nat n → P x s1 → ∃ s2, f s1 x = Ok s2 ∧ P (x + 1) s2) →
  ∃ s', forRange lo n f s = Ok s' ∧ P (lo + Z.of_nat n) s'.
Proof.
  revert lo s. induction n as [|n IH]; intros lo s HP Hstep; simpl.
  - rewrite Z.add_0_r. eauto.
  - destruct (Hstep lo s) as (s1 & Hf & HP1); [lia|exact HP|].
    rewrite Hf. simpl.
    replace (lo + Z.of_nat (S n)) with ((lo + 1) + Z.of_nat n) by lia.
    apply IH; [exact HP1|]. intros x s2 Hx. apply Hstep. lia.
Qed.

Lemma visitTile_step (w0 : World) (area : Rectangle.t) (st st' : World * gset nat) (x y : Z) :
  areaRunInv w0 area st → Rectangle.containsTile area (x, y) = true →
  visitTile st x y = Ok st' →
  areaRunInv w0 area st' ∧ st.2 ⊆ st'.2 ∧
  (∀ e, tileContent w0 (x, y) = Some e → is_Some (ejectors w0 !! e) → e ∈ st'.2).
Proof.
  destruct st as [w seen]. intros Hinv Hin H.
  pose proof Hinv as (Hg & Hfx & Hseen & Hun). simpl in *.
  pose proof Hg as (G1 & G2 & G3 & G4 & G5 & G6).
  unfold visitTile in H. rewrite G3 in H.
  destruct (tileContent w0 (x, y)) as [e|] eqn:Ht;
    [|injection H as <-; split; [exact Hinv|split; [done|]]; intros; discriminate].
  destruct (bool_decide (e ∈ seen)) eqn:Hs; simpl in H.
  - injection H as <-. split; [exact Hinv|split; [done|]].
    intros e' He' _. injection He' as <-. by apply bool_decide_eq_true in Hs.
  - apply bool_decide_eq_false in Hs.
    destruct (bool_decide (is_Some (ejectors w !! e))) eqn:He; simpl in H.
    + destruct (recomputeSingleEntityCache w e) as [w'|] eqn:Hr; simpl in H;
        [|discriminate].
      injection H as <-. destruct (recomputeSingle_step _ _ _ Hr) as (S1 & S2 & S3 & S4).
      split; [|split; [simpl; set_solver|]].
      * split; [exact (sameGrid_trans _ _ _ Hg S1)|]. simpl.
        split; [intros e' Hf; apply S4, Hfx, Hf|]. split.
        -- intros e' He'. apply elem_of_union in He' as [He'|He'].
           ++ apply elem_of_singleton in He' as ->. split; [exact S2|]. eauto.
           ++ destruct (Hseen e' He') as [Hf Ht']. split; [apply S4, Hf|exact Ht'].
        -- intros e' He'. rewrite S3 by set_solver. apply Hun. set_solver.
      * intros e' He' _. injection He' as <-. simpl. set_solver.
    + injection H as <-. split; [exact Hinv|split; [done|]].
      intros e' He' Hs'. injection He' as <-. exfalso.
      apply bool_decide_eq_false in He. apply He.
      apply (sameGrid_is_Some _ _ _ Hg). exact Hs'.
Qed.

Lemma areaRun_spec (w0 w1 : World) (area : Rectangle.t) :
  recomputeAreaCache w0 area = Ok w1 →
  sameGrid w0 w1 ∧ (∀ e, cacheFixed w0 e → cacheFixed w1 e) ∧
  (∀ t e, Rectangle.containsTile area t = true → tileContent w0 t = Some e →
          is_Some (ejectors w0 !! e) → cacheFixed w1 e) ∧
  (∀ e, (∀ t, Rectangle.containsTile area t = true → tileContent w0 t = Some e →
              ejectors w0 !! e = None) →
        ejectors w1 !! e = ejectors w0 !! e).
Proof.
  unfold recomputeAreaCache. intros H.
  destruct (forRange _ _ _ (w0, (∅ : gset nat))) as [[w1' seen]|] eqn:Hf;
    simpl in H; [|discriminate].
  injection H as <-.
  set (X := Rectangle.x area) in *. set (R := Rectangle.right area) in *.
  set (Y := Rectangle.y area) in *. set (B := Rectangle.bottom area) in *.
  assert (Hout : areaRunInv w0 area (w1', seen) ∧ visited w0 X R Y B seen).
  { assert (Hgen : ∀ x st, x = X + Z.of_nat (Z.to_nat (R - X)) →
      forRange X (Z.to_nat (R - X))
        (λ st x, forRange Y (Z.to_nat (B - Y)) (λ st' y, visitTile st' x y) st)
        (w0, ∅) = Ok st →
      areaRunInv w0 area st ∧ visited w0 X x Y B st.2).
    { intros x0 st0 -> Hst.
      eapply (forRange_ind (λ x st, areaRunInv w0 area st ∧ visited w0 X x Y B st.2));
        [| |exact Hst].
      - split.
        + split; [apply sameGrid_refl|]. simpl.
          split; [done|]. split; [intros e He; set_solver|done].
        + intros x' y e Hx'. lia.
      - intros x st1 st2 Hx [Hinv Hvis] Hin.
        apply (proj1 (range_iff _ _ _)) in Hx.
        assert (Hgen2 : ∀ y st, y = Y + Z.of_nat (Z.to_nat (B - Y)) →
          forRange Y (Z.to_nat (B - Y)) (λ st' y, visitTile st' x y) st1 = Ok st →
          areaRunInv w0 area st ∧ visited w0 X x Y B st.2 ∧ visited w0 x (x + 1) Y y st.2).
        { intros y st -> Hst2.
          eapply (forRange_ind (λ y st, areaRunInv w0 area st ∧ visited w0 X x Y B st.2 ∧
                                        visited w0 x (x + 1) Y y st.2));
            [| |exact Hst2].
          - split; [exact Hinv|split; [exact Hvis|]]. intros x' y' e _ Hy'. lia.
          - intros y st3 st4 Hy (Hinv3 & Hvis3 & Hcol) Hv.
            apply (proj1 (range_iff _ _ _)) in Hy.
            destruct (visitTile_step _ _ _ _ _ _ Hinv3
                        (proj2 (containsTile_iff area (x, y)) (conj Hx Hy)) Hv) as (I4 & Sub & New).
            split; [exact I4|split].
            + intros x' y' e A1 A2 A3 A4. apply Sub. eapply Hvis3; eauto.
            + intros x' y' e A1 A2 A3 A4.
              assert (x' = x) as -> by lia.
              destruct (decide (y' = y)) as [->|Hne]; [by apply New|].
              apply Sub. eapply Hcol; eauto. lia. }
        destruct (Hgen2 _ st2 eq_refl Hin) as (I2 & V1 & V2).
        split; [exact I2|]. intros x' y e A1 A2 A3 A4.
        destruct (decide (x' = x)) as [->|Hne].
        + eapply V2; eauto; [lia|]. revert A2. rewrite range_iff. lia.
        + eapply V1; eauto. lia. }
    destruct (Hgen _ _ eq_refl Hf) as [I V]. split; [exact I|].
    intros x y e A1 A2. apply V; [|exact A2]. revert A1. rewrite range_iff. lia. }
  destruct Hout as [(Hg & Hfx & Hseen & Hun) Hvis]. simpl in *.
  split; [exact Hg|split; [exact Hfx|split]].
  - intros [tx ty] e Ht Hc Hs. apply containsTile_iff in Ht. simpl in Ht.
    apply Hseen. eapply Hvis; eauto; lia.
  - intros e He. destruct (decide (e ∈ seen)) as [Hin|Hnin]; [|by apply Hun].
    destruct (Hseen e Hin) as [(c & Hc & _) (t & Ht & Hte)].
    pose proof (He t Ht Hte) as Hn.
    assert (Hs : is_Some (ejectors w1' !! e)) by eauto.
    apply (sameGrid_is_Some _ _ _ Hg) in Hs. rewrite Hn in Hs. by destruct Hs.
Qed.

Lemma areaRun_ok (w0 : World) (area : Rectangle.t) :
  (∀ t e, Rectangle.containsTile area t = true → tileContent w0 t = Some e →
          is_Some (ejectors w0 !! e) → is_Some (entities w0 !! e ≫= StaticMapEntity)) →
  acceptorsPlaced (tileContent w0) (entities w0) →
  ∃ w1, recomputeAreaCache w0 area = Ok w1.
Proof.
  intros Hst Hwf. unfold recomputeAreaCache.
  destruct (forRange_ok (λ _ st, sameGrid w0 st.1) (Rectangle.x area)
              (Z.to_nat (Rectangle.right area - Rectangle.x area))
              (λ st x, forRange (Rectangle.y area)
                         (Z.to_nat (Rectangle.bottom area - Rectangle.y area))
                         (λ st' y, visitTile st' x y) st)
              (w0, ∅)) as ([w1 seen] & Hf & _).
  - apply sameGrid_refl.
  - intros x st1 Hx Hg1. apply (proj1 (range_iff _ _ _)) in Hx.
    apply (forRange_ok (λ _ st, sameGrid w0 st.1)); [exact Hg1|].
    intros y [w seen] Hy Hg. apply (proj1 (range_iff _ _ _)) in Hy. simpl in Hg.
    pose proof Hg as (G1 & G2 & G3 & G4 & G5 & G6).
    unfold visitTile. rewrite G3.
    destruct (tileContent w0 (x, y)) as [e|] eqn:Ht; [|eauto].
    destruct (negb _ && bool_decide (is_Some (ejectors w !! e))) eqn:Hb; [|eauto].
    apply andb_true_iff in Hb as [_ Hb]. apply bool_decide_eq_true in Hb.
    destruct (recomputeSingle_ok w e) as [w' Hr].
    + exact Hb.
    + rewrite G2. apply (Hst (x, y)); [by apply containsTile_iff|exact Ht|].
      by apply (sameGrid_is_Some _ _ _ Hg).
    + rewrite G2, G3. exact Hwf.
    + rewrite Hr. simpl. eexists; split; [reflexivity|].
      exact (sameGrid_trans _ _ _ Hg (proj1 (recomputeSingle_step _ _ _ Hr))).
  - rewrite Hf. simpl. eauto.
Qed.

(** When every ejector entity on the tiles of [area] already has a fixed
    cache, recomputeAreaCache changes nothing. *)
Lemma areaRun_fixed (w : World) (area : Rectangle.t) :
  (∀ t e, Rectangle.containsTile area t = true → tileContent w t = Some e →
          is_Some (ejectors w !! e) → cacheFixed w e) →
  recomputeAreaCache w area = Ok w.
Proof.
  intros Hfix. unfold recomputeAreaCache.
  destruct (forRange_ok (λ _ st, st.1 = w) (Rectangle.x area)
              (Z.to_nat (Rectangle.right area - Rectangle.x area))
              (λ st x, forRange (Rectangle.y area)
                         (Z.to_nat (Rectangle.bottom area - Rectangle.y area))
                         (λ st' y, visitTile st' x y) st)
              (w, ∅)) as ([w1 seen] & Hf & Hw1).
  - reflexivity.
  - intros x st1 Hx Hg1. apply (proj1 (range_iff _ _ _)) in Hx.
    apply (forRange_ok (λ _ st, st.1 = w)); [exact Hg1|].
    intros y [w' seen] Hy Hw'. apply (proj1 (range_iff _ _ _)) in Hy. simpl in Hw'. subst w'.
    unfold visitTile.
    destruct (tileContent w (x, y)) as [e|] eqn:Ht; [|eauto].
    destruct (negb _ && bool_decide (is_Some (ejectors w !! e))) eqn:Hb; [|eauto].
    apply andb_true_iff in Hb as [_ Hb]. apply bool_decide_eq_true in Hb.
    rewrite cacheFixed_recompute; [simpl; eauto|].
    apply (Hfix (x, y)); [by apply containsTile_iff|exact Ht|exact Hb].
  - rewrite Hf. simpl in *. subst. reflexivity.
Qed.

(** C9: over an unchanged grid, running recomputeAreaCache on a region a
    second time, on the world the first run produced, gives the same
    result as running it once (and fails exactly when the first run
    fails). *)
Theorem recomputeAreaCache_idempotent (w : World) (area : Rectangle.t) :
  (recomputeAreaCache w area ≫= λ w1, recomputeAreaCache w1 area) = recomputeAreaCache w area.
Proof.
  destruct (recomputeAreaCache w area) as [w1|msg] eqn:H; simpl; [|reflexivity].
  apply areaRun_fixed. intros t e Ht Hc Hs.
  destruct (areaRun_spec _ _ _ H) as (Hg & _ & H3 & _).
  pose proof Hg as (G1 & G2 & G3 & G4 & G5 & G6).
  rewrite G3 in Hc. apply (H3 t e Ht Hc). by apply (sameGrid_is_Some _ _ _ Hg).
Qed.

(** ** Full recomputation *)

Lemma fullRun_spec (L : list nat) (w w1 : World) :
  forEach L recomputeSingleEntityCache w = Ok w1 →
  sameGrid w w1 ∧ (∀ e, cacheFixed w e → cacheFixed w1 e) ∧
  (∀ e, e ∈ L → cacheFixed w1 e) ∧
  (∀ e, e ∉ L → ejectors w1 !! e = ejectors w !! e).
Proof.
  revert w. induction L as [|v L IH]; intros w H; simpl in H.
  - injection H as <-. split; [apply sameGrid_refl|]. split; [auto|].
    split; [intros e He; by apply elem_of_nil in He|auto].
  - destruct (recomputeSingleEntityCache w v) as [w'|] eqn:Hr; simpl in H; [|discriminate].
    destruct (recomputeSingle_step _ _ _ Hr) as (S1 & S2 & S3 & S4).
    destruct (IH _ H) as (I1 & I2 & I3 & I4).
    split; [exact (sameGrid_trans _ _ _ S1 I1)|]. split; [auto|]. split.
    + intros e He. apply elem_of_cons in He as [->|He]; auto.
    + intros e He. rewrite I4 by set_solver. apply S3. set_solver.
Qed.

Lemma fullRun_ok (L : list nat) (w : World) :
  (∀ e, e ∈ L → is_Some (ejectors w !! e) ∧ is_Some (entities w !! e ≫= StaticMapEntity)) →
  acceptorsPlaced (tileContent w) (entities w) →
  ∃ w1, forEach L recomputeSingleEntityCache w = Ok w1.
Proof.
  revert w. induction L as [|v L IH]; intros w Hl Hwf; simpl; [eauto|].
  destruct (Hl v) as [H1 H2]; [set_solver|].
  destruct (recomputeSingle_ok w v H1 H2 Hwf) as [w' Hr]. rewrite Hr. simpl.
  destruct (recomputeSingle_step _ _ _ Hr) as (S1 & _).
  pose proof S1 as (G1 & G2 & G3 & G4 & G5 & G6).
  apply IH; [|rewrite G2, G3; exact Hwf].
  intros e He. destruct (Hl e) as [A B]; [set_solver|].
  rewrite G2. split; [|exact B]. by apply (sameGrid_is_Some _ _ _ S1).
Qed.

(** ** Edits *)

Lemma checkForCacheInvalidation_fields (w : World) (e : nat) :
  gameInitialized (checkForCacheInvalidation w e) = gameInitialized w ∧
  entities (checkForCacheInvalidation w e) = entities w ∧
  ejectors (checkForCacheInvalidation w e) = ejectors w ∧
  tileContent (checkForCacheInvalidation w e) = tileContent w ∧
  allEntities (checkForCacheInvalidation w e) = allEntities w.
Proof.
  unfold checkForCacheInvalidation.
  destruct (gameInitialized w) eqn:Hg; simpl; [|auto].
  destruct (entities w !! e ≫= StaticMapEntity); [|auto].
  destruct (areaToRecompute w); simpl; auto.
Qed.

Lemma expanded_contains (r : Rectangle.t) (t : Vector) :
  Rectangle.containsTile r t = true →
  Rectangle.containsTile (Rectangle.expandedInAllDirections r 2) t = true.
Proof.
  rewrite !containsTile_iff. unfold Rectangle.expandedInAllDirections, Rectangle.right,
    Rectangle.bottom. simpl. lia.
Qed.

Lemma expanded_contains_neighbour (r : Rectangle.t) (p : Vector) (d : Direction) :
  Rectangle.containsTile r (vadd p (enumDirectionToVector d)) = true →
  Rectangle.containsTile (Rectangle.expandedInAllDirections r 2) p = true.
Proof.
  rewrite !containsTile_iff. unfold Rectangle.expandedInAllDirections, Rectangle.right,
    Rectangle.bottom, vadd. destruct d; simpl; lia.
Qed.

Lemma recomputeSlots_congr (M M' : Vector → option nat) (E E' : gmap nat Entity)
    (osc : option SC) (ss : list EjectorSlot) :
  (∀ s, s ∈ ss → findSlotTarget M E osc s = findSlotTarget M' E' osc s) →
  ∀ i conn, recomputeSlots M E osc i ss conn = recomputeSlots M' E' osc i ss conn.
Proof.
  induction ss as [|s ss IH]; intros H i conn; [reflexivity|].
  cbn [recomputeSlots]. rewrite (H s) by set_solver.
  destruct (findSlotTarget M' E' osc s) as [r|]; simpl; [|reflexivity].
  rewrite IH by set_solver. reflexivity.
Qed.

Lemma forall_or_split {A : Type} (P : A → Prop) (Q : Prop) (l : list A) :
  (∀ x, x ∈ l → P x ∨ Q) → (∀ x, x ∈ l → P x) ∨ Q.
Proof.
  induction l as [|a l IH]; intros H.
  - left. intros x Hx. by apply elem_of_nil in Hx.
  - destruct (H a) as [Ha|Hq]; [set_solver| |by right].
    destruct IH as [Hl|Hq]; [intros x Hx; apply H; set_solver| |by right].
    left. intros x Hx. apply elem_of_cons in Hx as [->|Hx]; auto.
Qed.

Lemma editStep_inv (w w' : World) : editStep w w' → editInv w → editInv w'.
Proof.
  intros Hstep [Hheap Hinv].
  destruct Hstep as [w ents ej grid live X Hgi Hkeep Hsame Hej Hgrid Hlive Hmap].
  set (pre := mkWorld true ents ej grid live (areaToRecompute w)).
  destruct (checkForCacheInvalidation_fields pre X) as (F1 & F2 & F3 & F4 & F5).
  set (w' := checkForCacheInvalidation pre X) in *.
  split.
  - intros t u Ht. rewrite F4 in Ht. rewrite F2. exact (Hmap t u Ht).
  - intros u Hu Hb (sc & t & Hsc & Ht). rewrite F5 in Hu.
    destruct (decide (u = X)) as [->|Hne].
    + left. rewrite F2 in Hsc.
      destruct (checkForCacheInvalidation_covers_new pre X sc eq_refl Hsc t
                  (expanded_contains _ _ Ht)) as (a & Ha & Hat).
      exists sc, t, a. rewrite F2. auto.
    + assert (HuL : u ∈ allEntities w) by (destruct (Hlive u Hu); congruence).
      assert (Hent : entities w' !! u = entities w !! u)
        by (rewrite F2; exact (Hsame u Hne)).
      assert (Hejs : ejectors w' !! u = ejectors w !! u)
        by (rewrite F3; exact (Hej u Hne)).
      assert (Hb0 : slotsInBounds w u).
      { intros comp sc' Hc Hs. rewrite <- Hejs in Hc. rewrite <- Hent in Hs.
        exact (Hb comp sc' Hc Hs). }
      rewrite Hent in Hsc.
      destruct (Hinv u HuL Hb0 (ex_intro _ sc (ex_intro _ t (conj Hsc Ht))))
        as [(sc1 & t1 & a & Hs1 & Ht1 & Ha & Hat) | (c & Hc & Hr)].
      * left.
        assert (Hcov : covers (areaToRecompute w') a).
        { apply checkForCacheInvalidation_covers_mono. intros t2 H2.
          exists a. split; [exact Ha|exact H2]. }
        destruct (Hcov t1 Hat) as (a' & Ha' & Hat').
        exists sc1, t1, a'. rewrite Hent. auto.
      * destruct (forall_or_split
                    (λ s, findSlotTarget (tileContent w) (entities w) (Some sc) s =
                          findSlotTarget (tileContent w') (entities w') (Some sc) s)
                    (touched w' u) (slots c)) as [Hall|Htouch].
        -- intros s Hs. rewrite F4, F2.
           change (tileContent pre) with grid. change (entities pre) with ents.
           unfold findSlotTarget. destruct (ejectTarget sc s) as [T d] eqn:Het.
           destruct (decide (grid T = tileContent w T)) as [Heq|Hneq].
           ++ left. rewrite Heq.
              destruct (tileContent w T) as [te|] eqn:Hte; [|reflexivity].
              destruct (Hheap _ _ Hte) as [d0 Hd0]. rewrite Hd0, (Hkeep _ _ Hd0).
              reflexivity.
           ++ right. destruct (Hgrid T Hneq) as (scX & HscX & HT).
              unfold ejectTarget in Het. injection Het as HT' _.
              rewrite <- HT' in HT.
              destruct (checkForCacheInvalidation_covers_new pre X scX eq_refl HscX _
                          (expanded_contains_neighbour _ _ _ HT)) as (a & Ha & HaS).
              exists sc, (localTileToWorld sc (pos s)), a.
              rewrite Hent. split; [exact Hsc|]. split; [|auto].
              apply (Hb c sc); [rewrite Hejs; exact Hc|rewrite Hent; exact Hsc|exact Hs].
        -- right. exists c. split; [rewrite Hejs; exact Hc|].
           rewrite Hent, Hsc. rewrite Hsc in Hr.
           rewrite <- (recomputeSlots_congr _ _ _ _ _ _ Hall). exact Hr.
        -- by left.
Qed.

Lemma editInv_init (w0 : World) :
  areaToRecompute w0 = None → recomputeCache w0 = Ok w0 → mapInHeap w0 → editInv w0.
Proof.
  intros Ha Hr Hheap. split; [exact Hheap|].
  unfold recomputeCache in Hr. rewrite Ha in Hr.
  destruct (fullRun_spec _ _ _ Hr) as (_ & _ & H3 & _).
  intros u Hu _ _. right. by apply H3.
Qed.

Lemma edits_inv (w w' : World) : rtc editStep w w' → editInv w → editInv w'.
Proof.
  induction 1 as [w|w1 w2 w3 Hs _ IH]; [auto|].
  intros Hi. apply IH. exact (editStep_inv _ _ Hs Hi).
Qed.

Lemma World_eq (w1 w2 : World) :
  gameInitialized w1 = gameInitialized w2 → entities w1 = entities w2 →
  ejectors w1 = ejectors w2 → tileContent w1 = tileContent w2 →
  allEntities w1 = allEntities w2 → areaToRecompute w1 = areaToRecompute w2 → w1 = w2.
Proof. destruct w1, w2; simpl; intros; subst; reflexivity. Qed.

(** C1: start from a world whose cache is consistent (no pending area, and
    a full recomputation changes nothing), apply any sequence of
    entity-added / entity-destroyed events, each notified to the system
    while the game is initialized.  If in the final world every ejector
    entity has a non-empty placement, occupies every tile of its bounds and
    has its slots inside them, every ejector entity on the map is
    registered, and every acceptor on the map is placed, then recomputing
    through the pending area (what update does first when an area is
    pending) and a full from-scratch recomputation both succeed and give
    the same world, caches included. *)
Theorem incremental_recompute_matches_full (w0 wn : World) :
  areaToRecompute w0 = None → recomputeCache w0 = Ok w0 → mapInHeap w0 →
  rtc editStep w0 wn →
  (∀ u, u ∈ allEntities wn →
     is_Some (ejectors wn !! u) ∧ slotsInBounds wn u ∧
     ∃ sc, entities wn !! u ≫= StaticMapEntity = Some sc ∧
       (∃ t, Rectangle.containsTile (getTileSpaceBounds sc) t = true) ∧
       (∀ t, Rectangle.containsTile (getTileSpaceBounds sc) t = true →
             tileContent wn t = Some u)) →
  (∀ t u, tileContent wn t = Some u → is_Some (ejectors wn !! u) → u ∈ allEntities wn) →
  acceptorsPlaced (tileContent wn) (entities wn) →
  ∃ w', recomputeCache wn = Ok w' ∧ recomputeCache (set_area wn None) = Ok w'.
Proof.
  intros Ha0 Hr0 Hh0 Hsteps Hlive Hreg Hwf.
  destruct (edits_inv _ _ Hsteps (editInv_init _ Ha0 Hr0 Hh0)) as [_ Hinv].
  clear Ha0 Hr0 Hh0 Hsteps.
  destruct (fullRun_ok (allEntities wn) (set_area wn None)) as [wf Hf].
  { intros e He. destruct (Hlive e He) as (H1 & _ & sc & H2 & _). simpl. eauto. }
  { exact Hwf. }
  destruct (areaToRecompute wn) as [a|] eqn:Ha.
  2:{ assert (Hset : set_area wn None = wn) by (destruct wn; simpl in *; subst; reflexivity).
      rewrite Hset in Hf |- *. exists wf. unfold recomputeCache. rewrite Ha. auto. }
  destruct (areaRun_ok wn a) as [wa Hra].
  { intros t e _ Ht He. destruct (Hlive e (Hreg t e Ht He)) as (_ & _ & sc & Hsc & _).
    rewrite Hsc. eauto. }
  { exact Hwf. }
  exists wf. unfold recomputeCache. rewrite Ha, Hra. simpl. split; [|exact Hf].
  f_equal.
  destruct (areaRun_spec _ _ _ Hra) as (A1 & A2 & A3 & A5).
  destruct (fullRun_spec _ _ _ Hf) as (B1 & _ & B3 & B4).
  pose proof A1 as (A1g & A1e & A1t & A1l & A1a & A1k).
  pose proof B1 as (B1g & B1e & B1t & B1l & B1a & B1k). simpl in *.
  apply World_eq; simpl; try congruence.
  apply map_eq. intros e.
  destruct (decide (e ∈ allEntities wn)) as [HeL|HeL].
  - assert (Hfa : cacheFixed wa e).
    { destruct (Hlive e HeL) as (Hej & Hsib & sc & Hsc & (t & Ht) & Hocc).
      destruct (Hinv e HeL Hsib (ex_intro _ sc (ex_intro _ t (conj Hsc Ht))))
        as [(sc1 & t1 & a1 & Hs1 & Ht1 & Ha1 & Hat1) | Hfx].
      - rewrite Hs1 in Hsc. injection Hsc as <-. rewrite Ha in Ha1. injection Ha1 as <-.
        exact (A3 t1 e Hat1 (Hocc t1 Ht1) Hej).
      - exact (A2 e Hfx). }
    pose proof (B3 e HeL) as Hff.
    destruct Hfa as (c1 & Hc1 & Hr1). destruct Hff as (c2 & Hc2 & Hr2).
    rewrite Hc1, Hc2. f_equal.
    apply (cacheFixed_unique wa wf e c1 c2); try congruence.
    + specialize (A1k e). specialize (B1k e). rewrite Hc1 in A1k. rewrite Hc2 in B1k.
      simpl in A1k, B1k. congruence.
    + exists c1. auto.
    + exists c2. auto.
  - rewrite B4 by exact HeL. simpl. apply A5.
    intros t Ht Hte. destruct (ejectors wn !! e) eqn:E; [|reflexivity].
    exfalso. apply HeL. apply (Hreg t e Hte). eauto.
Qed.

(** ** Progress and items through update *)

Lemma forEach_inv {A St : Type} (P : St → Prop) (l : list A) (f : St → A → Result St)
    (s s' : St) :
  (∀ s1 a s2, a ∈ l → P s1 → f s1 a = Ok s2 → P s2) →
  P s → forEach l f s = Ok s' → P s'.
Proof.
  revert s. induction l as [|a l IH]; intros s Hf HP H; simpl in H.
  - injection H as <-. exact HP.
  - destruct (f s a) as [s1|] eqn:E; simpl in H; [|discriminate].
    apply (IH s1); [intros; eapply Hf; eauto; set_solver|eapply Hf; eauto; set_solver|exact H].
Qed.

Lemma ejectSlot_spec (w : World) (g : Q) (rs : RS) (s : EjectorSlot) (it : Item)
    (s' : EjectorSlot) (rs' : RS) :
  item s = Some it → ejectSlot w g rs s = Ok (s', rs') →
  progress s' = Qmin 1 (progress s + g) ∧
  (item s' = Some it ∨
   (item s' = None ∧
    ∃ te dst rs'', cachedTargetEntity s = Some te ∧ cachedDestSlot s = Some dst ∧
      acceptor_canAcceptItem rs te (index dst) it = true ∧
      tryPassOverItem w rs it te (index dst) = Ok (true, rs'') ∧
      rs' = acceptor_onItemAccepted rs'' te (index dst) (acceptedDirection dst) it)).
Proof.
  intros Hit H. unfold ejectSlot in H. rewrite Hit in H.
  destruct (negb (Qle_bool 1 _)) eqn:Hlt.
  { injection H as <- <-. simpl. auto. }
  destruct (cachedTargetEntity s) as [te|] eqn:Hte; [|discriminate].
  destruct (cachedDestSlot s) as [dst|] eqn:Hdst; [|discriminate].
  destruct (entities w !! te ≫= ItemAcceptor); [|discriminate].
  destruct (acceptor_canAcceptItem rs te (index dst) it) eqn:Hc; simpl in H.
  2:{ injection H as <- <-. simpl. auto. }
  destruct (tryPassOverItem w rs it te (index dst)) as [[[|] rs'']|] eqn:Ht;
    [| |discriminate].
  - injection H as <- <-. simpl. split; [reflexivity|right]. split; [reflexivity|].
    exists te, dst, rs''. auto.
  - injection H as <- <-. simpl. auto.
Qed.

Lemma ejectSlot_none (w : World) (g : Q) (rs : RS) (s s' : EjectorSlot) (rs' : RS) :
  item s = None → ejectSlot w g rs s = Ok (s', rs') → s' = s.
Proof. intros Hn H. unfold ejectSlot in H. rewrite Hn in H. by injection H as <-. Qed.

Lemma Qmin_one_pinned (p g : Q) : (0 <= g)%Q → (p == 1)%Q → (Qmin 1 (p + g) == 1)%Q.
Proof.
  intros Hg Hp. apply Q.min_l. rewrite Hp.
  rewrite <- (Qplus_0_r 1) at 1. apply Qplus_le_compat; [apply Qle_refl|exact Hg].
Qed.

Lemma lookup_map_key {B : Type} (f : EjectorSlot → B) (l1 l2 : list EjectorSlot)
    (j : nat) (x : EjectorSlot) :
  map f l1 = map f l2 → l2 !! j = Some x → ∃ y, l1 !! j = Some y ∧ f y = f x.
Proof.
  revert l2 j. induction l1 as [|a l1 IH]; intros l2 j Hm Hj.
  - destruct l2 as [|b l2]; simpl in Hm; [|discriminate].
    destruct j; simpl in Hj; discriminate.
  - destruct l2 as [|b l2]; simpl in Hm; [discriminate|].
    injection Hm as Hab Hm. destruct j as [|j]; simpl in Hj |- *.
    + injection Hj as ->. eauto.
    + eapply IH; eauto.
Qed.

Lemma slotHolds_keys (it : Item) (w w1 : World) (u j : nat) :
  (∀ e, option_map compKey (ejectors w1 !! e) = option_map compKey (ejectors w !! e)) →
  slotHolds it w u j → slotHolds it w1 u j.
Proof.
  intros Hk (c & s & Hc & Hs & Hh). specialize (Hk u). rewrite Hc in Hk.
  destruct (ejectors w1 !! u) as [c1|] eqn:Hc1; simpl in Hk; [|discriminate].
  injection Hk as Hk. unfold compKey in Hk.
  destruct (lookup_map_key _ _ _ _ _ Hk Hs) as (s1 & Hs1 & Hkey).
  destruct (slot_key_eq _ _ Hkey) as (_ & _ & Hi & Hp).
  exists c1, s1. rewrite Hi, Hp. auto.
Qed.

Lemma recomputeCache_keys (w w1 : World) :
  recomputeCache w = Ok w1 →
  ∀ e, option_map compKey (ejectors w1 !! e) = option_map compKey (ejectors w !! e).
Proof.
  unfold recomputeCache. destruct (areaToRecompute w) as [a|].
  - destruct (recomputeAreaCache w a) as [wa|] eqn:H; simpl; [|discriminate].
    intros E. injection E as <-. simpl.
    destruct (areaRun_spec _ _ _ H) as ((_ & _ & _ & _ & _ & K) & _). exact K.
  - intros H. destruct (fullRun_spec _ _ _ H) as ((_ & _ & _ & _ & _ & K) & _). exact K.
Qed.

Lemma updateSlot_holds (g : Q) (e : nat) (w w' : World) (rs rs' : RS) (j' : nat)
    (it : Item) (u j : nat) :
  (0 <= g)%Q → slotHolds it w u j → updateSlot g e (w, rs) j' = Ok (w', rs') →
  slotHolds it w' u j.
Proof.
  intros Hg (c & s & Hc & Hs & Hh) H. unfold updateSlot in H.
  destruct (ejectors w !! e) as [ce|] eqn:Hce; [|discriminate].
  destruct (slots ce !! j') as [s0|] eqn:Hs0; [|discriminate].
  destruct (ejectSlot w g rs s0) as [[s1 rs1]|] eqn:Hej; simpl in H; [|discriminate].
  injection H as <- <-. unfold slotHolds. simpl.
  destruct (decide (e = u)) as [->|Hne].
  2:{ exists c, s. rewrite lookup_insert_ne by congruence. auto. }
  rewrite Hc in Hce. injection Hce as <-.
  exists (mkItemEjector (<[j' := s1]> (slots c)) (cachedConnectedSlots c)).
  rewrite lookup_insert_eq. simpl.
  destruct (decide (j' = j)) as [->|Hnj].
  2:{ exists s. rewrite list_lookup_insert_ne by congruence. auto. }
  rewrite Hs in Hs0. injection Hs0 as <-.
  exists s1. rewrite list_lookup_insert_eq by (eapply lookup_lt_Some; exact Hs).
  split; [reflexivity|split; [reflexivity|]].
  destruct Hh as [[Hi Hp]|Hn].
  - destruct (ejectSlot_spec _ _ _ _ _ _ _ Hi Hej) as (Hp1 & [Hi1|[Hn1 _]]); [|by right].
    left. split; [exact Hi1|]. rewrite Hp1. by apply Qmin_one_pinned.
  - rewrite (ejectSlot_none _ _ _ _ _ _ Hn Hej). by right.
Qed.

Lemma update_holds (g : Q) (st st' : World * RS) (it : Item) (u j : nat) :
  (0 <= g)%Q → slotHolds it st.1 u j → update g st = Ok st' → slotHolds it st'.1 u j.
Proof.
  destruct st as [w rs]. intros Hg Hh H. unfold update in H.
  destruct (match areaToRecompute w with Some _ => recomputeCache w | None => Ok w end)
    as [w1|] eqn:Hw1; simpl in H; [|discriminate].
  assert (Hh1 : slotHolds it w1 u j).
  { destruct (areaToRecompute w); [|injection Hw1 as <-; exact Hh].
    exact (slotHolds_keys _ _ _ _ _ (recomputeCache_keys _ _ Hw1) Hh). }
  revert H. apply (forEach_inv (λ st, slotHolds it st.1 u j)); [|exact Hh1].
  intros [w2 rs2] e [w3 rs3] _ Hh2 He. simpl in *.
  unfold updateEntity in He. simpl in He.
  destruct (ejectors w2 !! e) as [c|]; [|discriminate].
  destruct (cachedConnectedSlots c) as [conn|]; [|injection He as <-; exact Hh2].
  revert He. apply (forEach_inv (λ st, slotHolds it st.1 u j)); [|exact Hh2].
  intros [w4 rs4] j' [w5 rs5] _ Hh4 Hu. simpl in *.
  exact (updateSlot_holds _ _ _ _ _ _ _ _ _ _ Hg Hh4 Hu).
Qed.

(** C2: in one tick, a slot holding an item gets progress
    min(1, progress + progressGrowth): never above 1, never below the old
    progress when that was at most 1 and the growth is non-negative,
    still 1 when it was 1; its item either stays, or is cleared exactly
    when the cached acceptor could accept it and the handover succeeded
    (and onItemAccepted is then called).  Across any number of ticks with
    non-negative growths, a slot that holds an item with progress 1 (or is
    empty) keeps that item with progress 1 until it becomes empty: the item
    is never replaced or lost. *)
Theorem ejector_progress_and_item :
  (∀ (w : World) (g : Q) (rs : RS) (s : EjectorSlot) (it : Item) (s' : EjectorSlot) (rs' : RS),
     item s = Some it → ejectSlot w g rs s = Ok (s', rs') →
     progress s' = Qmin 1 (progress s + g) ∧ (progress s' <= 1)%Q ∧
     ((0 <= g)%Q → (progress s <= 1)%Q → (progress s <= progress s')%Q) ∧
     ((0 <= g)%Q → (progress s == 1)%Q → (progress s' == 1)%Q) ∧
     (item s' = Some it ∨
      (item s' = None ∧
       ∃ te dst rs'', cachedTargetEntity s = Some te ∧ cachedDestSlot s = Some dst ∧
         acceptor_canAcceptItem rs te (index dst) it = true ∧
         tryPassOverItem w rs it te (index dst) = Ok (true, rs'') ∧
         rs' = acceptor_onItemAccepted rs'' te (index dst) (acceptedDirection dst) it))) ∧
  (∀ (growths : list Q) (st st' : World * RS) (it : Item) (u j : nat),
     Forall (λ g, (0 <= g)%Q) growths → slotHolds it st.1 u j →
     ticks growths st = Ok st' → slotHolds it st'.1 u j).
Proof.
  split.
  - intros w g rs s it s' rs' Hi H.
    destruct (ejectSlot_spec _ _ _ _ _ _ _ Hi H) as [Hp Hitem].
    rewrite Hp. split; [reflexivity|]. split; [apply Q.le_min_l|].
    split; [|split; [intros Hg Hq; by apply Qmin_one_pinned|exact Hitem]].
    intros Hg Hle. apply Q.min_glb; [exact Hle|].
    rewrite <- (Qplus_0_r (progress s)) at 1.
    apply Qplus_le_compat; [apply Qle_refl|exact Hg].
  - induction growths as [|g gs IH]; intros st st' it u j Hgs Hh H; simpl in H.
    + injection H as <-. exact Hh.
    + apply Forall_cons in Hgs as [Hg Hgs].
      destruct (update g st) as [st1|] eqn:Hu; simpl in H; [|discriminate].
      exact (IH st1 st' it u j Hgs (update_holds _ _ _ _ _ _ Hg Hh Hu) H).
Qed.

(** ** What a tick reads *)

Lemma forEach_commute {A St : Type} (F : St → St) (l : list A) (f : St → A → Result St) :
  (∀ s a, f (F s) a = f s a ≫= λ s', Ok (F s')) →
  ∀ s, forEach l f (F s) = forEach l f s ≫= λ s', Ok (F s').
Proof.
  intros Hf. induction l as [|a l IH]; intros s; [reflexivity|]. simpl.
  rewrite Hf. destruct (f s a) as [s1|]; simpl; [apply IH|reflexivity].
Qed.

Lemma updateSlot_grid (g : Q) (e : nat) (grid : Vector → option nat) (w : World) (rs : RS)
    (j : nat) :
  updateSlot g e (set_tileContent w grid, rs) j
  = updateSlot g e (w, rs) j ≫= λ st, Ok (set_tileContent st.1 grid, st.2).
Proof.
  unfold updateSlot. simpl.
  destruct (ejectors w !! e) as [c|]; [|reflexivity].
  destruct (slots c !! j) as [s|]; [|reflexivity].
  change (ejectSlot (set_tileContent w grid) g rs s) with (ejectSlot w g rs s).
  destruct (ejectSlot w g rs s) as [[s' rs']|]; reflexivity.
Qed.

Lemma updateEntity_grid (g : Q) (grid : Vector → option nat) (st : World * RS) (e : nat) :
  updateEntity g (set_tileContent st.1 grid, st.2) e
  = updateEntity g st e ≫= λ st', Ok (set_tileContent st'.1 grid, st'.2).
Proof.
  destruct st as [w rs]. unfold updateEntity. simpl.
  destruct (ejectors w !! e) as [c|]; [|reflexivity].
  destruct (cachedConnectedSlots c) as [conn|]; [|reflexivity].
  refine (forEach_commute (λ st, (set_tileContent st.1 grid, st.2)) conn
            (updateSlot g e) _ (w, rs)).
  intros [w1 rs1] j. apply updateSlot_grid.
Qed.

(** C3 (as amended): the tick has no liveness check.  With no pending
    area, update does not read the map at all: a cached target that has
    been removed from the map (destroyed, its object still referenced by
    the cache) is used exactly as if it were still there.  Stale targets
    are only dropped by the recomputation that update runs first when a
    notification left a pending area. *)
Theorem update_ignores_map (g : Q) (w : World) (rs : RS) (grid : Vector → option nat) :
  areaToRecompute w = None →
  update g (set_tileContent w grid, rs)
  = update g (w, rs) ≫= λ st, Ok (set_tileContent st.1 grid, st.2).
Proof.
  intros Ha. unfold update. simpl. rewrite Ha. simpl.
  refine (forEach_commute (λ st, (set_tileContent st.1 grid, st.2)) (allEntities w)
            (updateEntity g) _ (w, rs)).
  intros st e. apply updateEntity_grid.
Qed.

End Properties.

(** * Further properties of the code *)

Section MoreProperties.

Context {SC AC Item Path RS DP : Type}.
Context `{!Placement SC} `{!AcceptorQuery AC} `{!Receivers RS Item Path} `{!Drawing SC DP}.

Local Abbreviation World := (@World SC AC Item Path).
Local Abbreviation Entity := (@Entity SC AC Path).
Local Abbreviation EjectorSlot := (@EjectorSlot Item).
Local Abbreviation ItemEjectorComponent := (@ItemEjectorComponent Item).

(** ** The slot loop of recomputeSingleEntityCache *)

Lemma mergeConnected_push (conn : option (list nat)) (i : nat) (L : list nat) :
  mergeConnected (pushConnected conn i) L = mergeConnected conn (i :: L).
Proof.
  destruct conn as [c|], L as [|x L]; simpl; try reflexivity.
  rewrite <- app_assoc. reflexivity.
Qed.

Lemma recomputeSlots_results (M : Vector → option nat) (E : gmap nat Entity)
    (osc : option SC) (i : nat) (ss : list EjectorSlot) (conn : option (list nat))
    (ss' : list EjectorSlot) (conn' : option (list nat)) :
  recomputeSlots M E osc i ss conn = Ok (ss', conn') →
  ∃ rs, Forall2 (λ s r, findSlotTarget M E osc s = Ok r) ss rs ∧
    ss' = zip_with cachedSlot_spec ss rs ∧ conn' = mergeConnected conn (connectedFrom i rs).
Proof.
  revert i conn ss' conn'.
  induction ss as [|s ss IH]; intros i conn ss' conn' H; simpl in H.
  - injection H as <- <-. exists []. split; [constructor|]. split; reflexivity.
  - destruct (findSlotTarget M E osc s) as [r|] eqn:Hf; simpl in H; [|discriminate].
    destruct (recomputeSlots M E osc (S i) ss _) as [[rest' c'']|] eqn:Hr;
      simpl in H; [|discriminate].
    injection H as <- <-.
    destruct (IH _ _ _ _ Hr) as (rs & Hrs & -> & ->).
    exists (r :: rs). split; [constructor; assumption|]. split.
    + destruct r as [[te m]|]; reflexivity.
    + destruct r as [[te m]|]; simpl; [apply mergeConnected_push|reflexivity].
Qed.

Lemma connectedFrom_elem {B : Type} (i : nat) (rs : list (option B)) (j : nat) :
  j ∈ connectedFrom i rs ↔ ∃ k x, rs !! k = Some (Some x) ∧ j = (i + k)%nat.
Proof.
  revert i. induction rs as [|r rs IH]; intros i; simpl.
  - rewrite elem_of_nil. split; [done|]. intros (k & x & Hk & _). discriminate.
  - destruct r as [x|].
    + rewrite elem_of_cons, IH. split.
      * intros [->|(k & y & Hk & ->)].
        -- exists 0%nat, x. split; [reflexivity|lia].
        -- exists (S k), y. split; [exact Hk|lia].
      * intros ([|k] & y & Hk & ->); [left; lia|].
        right. exists k, y. split; [exact Hk|lia].
    + rewrite IH. split.
      * intros (k & y & Hk & ->). exists (S k), y. split; [exact Hk|lia].
      * intros ([|k] & y & Hk & ->); [discriminate|].
        exists k, y. split; [exact Hk|lia].
Qed.

Lemma connectedFrom_sorted {B : Type} (i : nat) (rs : list (option B)) :
  StronglySorted lt (connectedFrom i rs).
Proof.
  revert i. induction rs as [|r rs IH]; intros i; simpl; [constructor|].
  destruct r as [x|]; [|apply IH].
  constructor; [apply IH|]. apply Forall_forall. intros j Hj.
  apply connectedFrom_elem in Hj as (k & y & _ & ->). lia.
Qed.

Lemma findSlotTarget_some (M : Vector → option nat) (E : gmap nat Entity)
    (osc : option SC) (s : EjectorSlot) (te : nat) (m : SlotMatch) :
  findSlotTarget M E osc s = Ok (Some (te, m)) →
  ∃ sc d acc tsc, osc = Some sc ∧ M (ejectTarget sc s).1 = Some te ∧
    E !! te = Some d ∧ ItemAcceptor d = Some acc ∧ StaticMapEntity d = Some tsc ∧
    findMatchingSlot acc (worldToLocalTile tsc (ejectTarget sc s).1)
      (worldDirectionToLocal tsc (ejectTarget sc s).2) = Some m.
Proof.
  unfold findSlotTarget. destruct osc as [sc|]; [|discriminate].
  remember (ejectTarget sc s) as et eqn:He. destruct et as [tile dir].
  destruct (M tile) as [t|] eqn:Hm; [|discriminate].
  destruct (E !! t) as [d|] eqn:Hd; simpl; [|discriminate].
  destruct (ItemAcceptor d) as [acc|] eqn:Ha; [|discriminate].
  destruct (StaticMapEntity d) as [tsc|] eqn:Hs; [|discriminate].
  destruct (findMatchingSlot acc _ _) as [m'|] eqn:Hf; [|discriminate].
  intros H. injection H as <- <-.
  unfold ejectTarget in He. injection He as -> ->.
  exists sc, d, acc, tsc. simpl. repeat split; auto.
Qed.

Lemma recomputeSingle_structure (w w' : World) (entity : nat) :
  recomputeSingleEntityCache w entity = Ok w' →
  ∃ comp rs, ejectors w !! entity = Some comp ∧
    Forall2 (λ s r, findSlotTarget (tileContent w) (entities w)
                      (entities w !! entity ≫= StaticMapEntity) s = Ok r) (slots comp) rs ∧
    w' = set_ejectors w (<[entity := mkItemEjector (zip_with cachedSlot_spec (slots comp) rs)
                                       (mergeConnected None (connectedFrom 0 rs))]> (ejectors w)).
Proof.
  intros H. destruct (recomputeSingle_shape _ _ _ H) as (comp & ss & conn & Hc & Hr & ->).
  destruct (recomputeSlots_results _ _ _ _ _ _ _ _ Hr) as (rs & Hrs & -> & ->).
  exists comp, rs. auto.
Qed.

Lemma recomputeSingle_connected (w w' : World) (entity : nat) (comp' : ItemEjectorComponent) :
  recomputeSingleEntityCache w entity = Ok w' →
  ejectors w' !! entity = Some comp' →
  StronglySorted lt (default [] (cachedConnectedSlots comp')) ∧
  (∀ j, j ∈ default [] (cachedConnectedSlots comp') ↔
        ∃ s, slots comp' !! j = Some s ∧ is_Some (cachedTargetEntity s)) ∧
  (∀ s, s ∈ slots comp' → is_Some (cachedTargetEntity s) ↔ is_Some (cachedDestSlot s)) ∧
  (∀ s te, s ∈ slots comp' → cachedTargetEntity s = Some te →
     ∃ sc d, entities w !! entity ≫= StaticMapEntity = Some sc ∧
       tileContent w (ejectTarget sc s).1 = Some te ∧
       entities w !! te = Some d ∧ is_Some (ItemAcceptor d)).
Proof.
  intros H Hl. destruct (recomputeSingle_structure _ _ _ H) as (comp & rs & Hc & Hrs & ->).
  simpl in Hl. rewrite lookup_insert_eq in Hl. injection Hl as <-. simpl.
  assert (default [] (mergeConnected None (connectedFrom 0 rs)) = connectedFrom 0 rs) as ->
    by (destruct (connectedFrom 0 rs); reflexivity).
  split; [apply connectedFrom_sorted|]. split; [|split].
  - intros j. rewrite connectedFrom_elem. split.
    + intros (k & x & Hk & ->). simpl.
      destruct (Forall2_lookup_r _ _ _ _ _ Hrs Hk) as (s & Hs & _).
      exists (cachedSlot_spec s (Some x)). rewrite lookup_zip_with, Hs, Hk.
      split; [reflexivity|]. destruct x as [te m]. eexists; reflexivity.
    + intros (s' & Hs' & Ht). rewrite lookup_zip_with in Hs'.
      destruct (slots comp !! j) as [s|] eqn:Hs; [|discriminate]. simpl in Hs'.
      destruct (rs !! j) as [r|] eqn:Hk; [|discriminate]. simpl in Hs'.
      injection Hs' as <-.
      destruct r as [[te m]|]; simpl in Ht; [|destruct Ht; discriminate].
      exists j, (te, m). split; [exact Hk|lia].
  - intros s' Hin. apply list_elem_of_lookup in Hin as [k Hk].
    rewrite lookup_zip_with in Hk.
    destruct (slots comp !! k) as [s|]; [|discriminate]. simpl in Hk.
    destruct (rs !! k) as [r|]; [|discriminate]. simpl in Hk. injection Hk as <-.
    destruct r as [[te m]|]; simpl; split; intros [? Hx]; try discriminate; eexists; reflexivity.
  - intros s' te Hin Ht. apply list_elem_of_lookup in Hin as [k Hk].
    rewrite lookup_zip_with in Hk.
    destruct (slots comp !! k) as [s|] eqn:Hs; [|discriminate]. simpl in Hk.
    destruct (rs !! k) as [r|] eqn:Hr; [|discriminate]. simpl in Hk. injection Hk as <-.
    destruct r as [[te' m]|]; simpl in Ht; [|discriminate]. injection Ht as ->.
    pose proof (Forall2_lookup_lr _ _ _ _ _ _ Hrs Hs Hr) as Hf. simpl in Hf.
    destruct (findSlotTarget_some _ _ _ _ _ _ Hf)
      as (sc & d & acc & tsc & Hsc & Hm & Hd & Ha & _ & _).
    exists sc, d. split; [exact Hsc|]. split; [exact Hm|]. split; [exact Hd|].
    rewrite Ha. eexists; reflexivity.
Qed.

Lemma recomputeSingle_sound (w w' : World) (entity : nat) :
  recomputeSingleEntityCache w entity = Ok w' → connectedSound w' entity.
Proof.
  intros H. destruct (recomputeSingle_shape _ _ _ H) as (comp & ss & conn & _ & _ & Hw').
  assert (Hl : ejectors w' !! entity = Some (mkItemEjector ss conn))
    by (rewrite Hw'; simpl; apply lookup_insert_eq).
  assert (He : entities w' = entities w) by (rewrite Hw'; reflexivity).
  destruct (recomputeSingle_connected _ _ _ _ H Hl) as (_ & Hj & Hts & Htg).
  exists (mkItemEjector ss conn). split; [exact Hl|].
  intros j Hjin. apply Hj in Hjin as (s & Hs & [te Hte]).
  pose proof (list_elem_of_lookup_2 _ _ _ Hs) as Hin.
  destruct (proj1 (Hts s Hin) (ex_intro _ te Hte)) as [dst Hdst].
  destruct (Htg s te Hin Hte) as (sc & d & _ & _ & Hd & Ha).
  exists s, te, dst, d. rewrite He. auto.
Qed.

(** X1: recomputeSingleEntityCache writes nothing but the ejector
    component of its entity, and there only the cache: the heap, the map,
    the entity list, the pending area and every other component are kept,
    and the entity's slots keep their number, positions, directions, items
    and progress. *)
Theorem recomputeSingleEntityCache_frame (w w' : World) (entity : nat) :
  recomputeSingleEntityCache w entity = Ok w' →
  gameInitialized w' = gameInitialized w ∧ entities w' = entities w ∧
  tileContent w' = tileContent w ∧ allEntities w' = allEntities w ∧
  areaToRecompute w' = areaToRecompute w ∧
  (∀ e, e ≠ entity → ejectors w' !! e = ejectors w !! e) ∧
  option_map compKey (ejectors w' !! entity) = option_map compKey (ejectors w !! entity).
Proof.
  intros H. destruct (recomputeSingle_step _ _ _ H) as ((Hg & He & Ht & Ha & Hr & Hk) & _ & Ho & _).
  repeat split; auto.
Qed.

(** X2: after recomputeSingleEntityCache, the connected list holds, in
    increasing order and without repetition, exactly the indices of the
    slots that have a cached target; a slot has a cached target exactly
    when it has a cached destination slot; and each cached target is the
    occupant of the tile the slot ejects into, an entity with an
    ItemAcceptor. *)
Theorem recomputeSingleEntityCache_connected_slots (w w' : World) (entity : nat)
    (comp' : ItemEjectorComponent) :
  recomputeSingleEntityCache w entity = Ok w' →
  ejectors w' !! entity = Some comp' →
  StronglySorted lt (default [] (cachedConnectedSlots comp')) ∧
  (∀ j, j ∈ default [] (cachedConnectedSlots comp') ↔
        ∃ s, slots comp' !! j = Some s ∧ is_Some (cachedTargetEntity s)) ∧
  (∀ s, s ∈ slots comp' → is_Some (cachedTargetEntity s) ↔ is_Some (cachedDestSlot s)) ∧
  (∀ s te, s ∈ slots comp' → cachedTargetEntity s = Some te →
     ∃ sc d, entities w !! entity ≫= StaticMapEntity = Some sc ∧
       tileContent w (ejectTarget sc s).1 = Some te ∧
       entities w !! te = Some d ∧ is_Some (ItemAcceptor d)).
Proof. intros H Hl. exact (recomputeSingle_connected w w' entity comp' H Hl). Qed.

(** X3: for an ejector entity without a StaticMapEntity,
    recomputeSingleEntityCache throws as soon as the component has a slot;
    with no slot it succeeds and leaves the connected list null. *)
Theorem recomputeSingleEntityCache_unplaced (w : World) (entity : nat)
    (comp : ItemEjectorComponent) :
  ejectors w !! entity = Some comp → entities w !! entity ≫= StaticMapEntity = None →
  (slots comp = [] →
   recomputeSingleEntityCache w entity
   = Ok (set_ejectors w (<[entity := mkItemEjector [] None]> (ejectors w)))) ∧
  (slots comp ≠ [] → recomputeSingleEntityCache w entity = Err "staticComp is undefined").
Proof.
  intros Hc Hs. unfold recomputeSingleEntityCache. rewrite Hc, Hs.
  destruct (slots comp) as [|s ss]; split; intros H; try congruence; reflexivity.
Qed.

(** ** The tick *)

Lemma forEach_ok {A St : Type} (P : St → Prop) (l : list A) (f : St → A → Result St)
    (s : St) :
  (∀ s1 a, a ∈ l → P s1 → ∃ s2, f s1 a = Ok s2 ∧ P s2) →
  P s → ∃ s', forEach l f s = Ok s' ∧ P s'.
Proof.
  revert s. induction l as [|a l IH]; intros s Hf Hs; simpl; [eauto|].
  destruct (Hf s a ltac:(left) Hs) as (s2 & -> & Hs2). simpl.
  apply IH; [|exact Hs2]. intros s1 b Hb. apply Hf. right. exact Hb.
Qed.

Lemma tickFrame_refl (w : World) : tickFrame w w.
Proof. repeat split. Qed.

Lemma tickFrame_trans (w1 w2 w3 : World) :
  tickFrame w1 w2 → tickFrame w2 w3 → tickFrame w1 w3.
Proof.
  intros (H1 & H2 & H3 & H4 & H5 & H6) (K1 & K2 & K3 & K4 & K5 & K6).
  repeat split; try congruence.
Qed.

Lemma map_insert_same {A B : Type} (f : A → B) (l : list A) (j : nat) (x y : A) :
  l !! j = Some x → f y = f x → map f (<[j := y]> l) = map f l.
Proof.
  revert j. induction l as [|a l IH]; intros j Hj Hf; [discriminate|].
  destruct j as [|j]; simpl in *.
  - injection Hj as ->. rewrite Hf. reflexivity.
  - rewrite (IH j Hj Hf). reflexivity.
Qed.

Lemma ejectSlot_cache (w : World) (g : Q) (rs : RS) (s s' : EjectorSlot) (rs' : RS) :
  ejectSlot w g rs s = Ok (s', rs') → slot_cache s' = slot_cache s.
Proof.
  unfold ejectSlot. intros H. repeat (case_match; simplify_eq/=); reflexivity.
Qed.

Lemma updateSlot_shape (g : Q) (e : nat) (w w' : World) (rs rs' : RS) (j : nat) :
  updateSlot g e (w, rs) j = Ok (w', rs') →
  ∃ comp s s', ejectors w !! e = Some comp ∧ slots comp !! j = Some s ∧
    ejectSlot w g rs s = Ok (s', rs') ∧
    w' = set_ejectors w (<[e := mkItemEjector (<[j := s']> (slots comp))
                                   (cachedConnectedSlots comp)]> (ejectors w)).
Proof.
  unfold updateSlot. destruct (ejectors w !! e) as [comp|]; [|discriminate].
  destruct (slots comp !! j) as [s|] eqn:Hs; [|discriminate].
  destruct (ejectSlot w g rs s) as [[s' rs1]|] eqn:He; simpl; [|discriminate].
  intros H. injection H as <- <-. exists comp, s, s'. auto.
Qed.

Lemma updateSlot_frame (g : Q) (e : nat) (w w' : World) (rs rs' : RS) (j : nat) :
  updateSlot g e (w, rs) j = Ok (w', rs') → tickFrame w w'.
Proof.
  intros H. destruct (updateSlot_shape _ _ _ _ _ _ _ H) as (comp & s & s' & Hc & Hs & He & ->).
  repeat split. intros u. simpl. destruct (decide (u = e)) as [->|Hne].
  - rewrite lookup_insert_eq, Hc. simpl. unfold compCache. simpl.
    rewrite (map_insert_same _ _ _ _ _ Hs (ejectSlot_cache _ _ _ _ _ _ He)). reflexivity.
  - rewrite lookup_insert_ne by congruence. reflexivity.
Qed.

Lemma updateEntity_frame (g : Q) (st st' : World * RS) (e : nat) :
  updateEntity g st e = Ok st' → tickFrame st.1 st'.1.
Proof.
  unfold updateEntity. destruct (ejectors st.1 !! e) as [comp|]; [|discriminate].
  destruct (cachedConnectedSlots comp) as [conn|].
  - apply (forEach_inv (λ st2, tickFrame st.1 st2.1)); [|apply tickFrame_refl].
    intros [w1 rs1] j [w2 rs2] _ H1 H2. simpl in *.
    exact (tickFrame_trans _ _ _ H1 (updateSlot_frame _ _ _ _ _ _ _ H2)).
  - intros H. injection H as <-. apply tickFrame_refl.
Qed.

Lemma updateLoop_frame (g : Q) (L : list nat) (st st' : World * RS) :
  forEach L (updateEntity g) st = Ok st' → tickFrame st.1 st'.1.
Proof.
  apply (forEach_inv (λ st2, tickFrame st.1 st2.1)); [|apply tickFrame_refl].
  intros s1 e s2 _ H1 H2. exact (tickFrame_trans _ _ _ H1 (updateEntity_frame _ _ _ _ H2)).
Qed.

(** X4: a tick changes only the items and progress of ejector slots: the
    heap, the map, the entity list and the initialization flag are kept,
    the pending area is consumed, and when no area was pending every
    connected list and every slot's position, direction, cached target and
    cached destination are kept. *)
Theorem update_frame (g : Q) (w w' : World) (rs rs' : RS) :
  update g (w, rs) = Ok (w', rs') →
  gameInitialized w' = gameInitialized w ∧ entities w' = entities w ∧
  tileContent w' = tileContent w ∧ allEntities w' = allEntities w ∧
  areaToRecompute w' = None ∧
  (areaToRecompute w = None →
   ∀ u, option_map compCache (ejectors w' !! u) = option_map compCache (ejectors w !! u)).
Proof.
  unfold update. destruct (areaToRecompute w) as [a|] eqn:Ha; simpl.
  - unfold recomputeCache. rewrite Ha.
    destruct (recomputeAreaCache w a) as [w2|] eqn:Hr; simpl; [|discriminate].
    intros H. apply updateLoop_frame in H as (K1 & K2 & K3 & K4 & K5 & _). simpl in *.
    destruct (areaRun_spec _ _ _ Hr) as ((H1 & H2 & H3 & H4 & _) & _).
    repeat split; congruence.
  - intros H. apply updateLoop_frame in H as (K1 & K2 & K3 & K4 & K5 & K6). simpl in *.
    repeat split; congruence.
Qed.

Lemma tryPassOverItem_ok (w : World) (rs : RS) (it : Item) (receiver slotIndex : nat)
    (r : Entity) :
  entities w !! receiver = Some r →
  (∀ bc, Belt r = Some bc → is_Some (assignedPath bc)) →
  ∃ res, tryPassOverItem w rs it receiver slotIndex = Ok res.
Proof.
  intros Hr Hb. unfold tryPassOverItem. rewrite Hr.
  destruct (Belt r) as [bc|].
  - destruct (Hb bc eq_refl) as [p Hp]. rewrite Hp.
    repeat (first [eexists; reflexivity | case_match]).
  - repeat (first [eexists; reflexivity | case_match]).
Qed.

Lemma ejectSlot_ok (w : World) (g : Q) (rs : RS) (s : EjectorSlot) (te : nat)
    (dst : SlotMatch) (d : Entity) :
  cachedTargetEntity s = Some te → cachedDestSlot s = Some dst →
  entities w !! te = Some d → is_Some (ItemAcceptor d) → beltsHavePaths w →
  ∃ r, ejectSlot w g rs s = Ok r.
Proof.
  intros Ht Hd He [acc Ha] Hb. unfold ejectSlot.
  destruct (item s) as [it|]; [|eexists; reflexivity].
  destruct (negb _); [eexists; reflexivity|].
  rewrite Ht, Hd, He. simpl. rewrite Ha.
  destruct (negb _); [eexists; reflexivity|].
  destruct (tryPassOverItem_ok w rs it te (index dst) d He (λ bc Hbc, Hb te d bc He Hbc))
    as [[[|] rs1] ->]; eexists; reflexivity.
Qed.

Lemma update_total_aux (g : Q) (w : World) (rs : RS) :
  areaToRecompute w = None →
  (∀ u, u ∈ allEntities w → connectedSound w u) → beltsHavePaths w →
  ∃ st', update g (w, rs) = Ok st'.
Proof.
  intros Ha Hs Hb. unfold update. rewrite Ha. simpl.
  destruct (forEach_ok (λ st, tickFrame w st.1) (allEntities w) (updateEntity g) (w, rs))
    as (st' & -> & _); [|apply tickFrame_refl|eauto].
  intros [w1 rs1] e He H1. simpl in H1.
  destruct (Hs e He) as (comp0 & Hc0 & Hj0).
  pose proof (proj2 (proj2 (proj2 (proj2 (proj2 H1)))) e) as Hk. rewrite Hc0 in Hk.
  destruct (ejectors w1 !! e) as [comp1|] eqn:Hc1; [|discriminate].
  simpl in Hk. injection Hk as Hconn Hsl.
  unfold updateEntity. simpl. rewrite Hc1.
  destruct (cachedConnectedSlots comp1) as [conn|] eqn:Hcn; [|eexists; split; [reflexivity|exact H1]].
  apply (forEach_ok (λ st, tickFrame w st.1) conn (updateSlot g e)); [|exact H1].
  intros [w2 rs2] j Hj H2. simpl in H2.
  destruct (Hj0 j) as (s0 & te & dst & d & Hs0 & Hte & Hdst & Hd & Hacc).
  { rewrite <- Hconn. exact Hj. }
  pose proof (proj2 (proj2 (proj2 (proj2 (proj2 H2)))) e) as Hk2. rewrite Hc0 in Hk2.
  destruct (ejectors w2 !! e) as [comp2|] eqn:Hc2; [|discriminate].
  simpl in Hk2. injection Hk2 as _ Hsl2.
  destruct (lookup_map_key slot_cache _ _ _ _ Hsl2 Hs0) as (s2 & Hs2 & Hkey).
  unfold slot_cache in Hkey. injection Hkey as _ _ Hte2 Hdst2.
  assert (Hent : entities w2 = entities w) by apply H2.
  destruct (ejectSlot_ok w2 g rs2 s2 te dst d) as [[s' rs'] Hej].
  { congruence. } { congruence. } { rewrite Hent. exact Hd. } { exact Hacc. }
  { unfold beltsHavePaths. rewrite Hent. exact Hb. }
  assert (Hu : updateSlot g e (w2, rs2) j
               = Ok (set_ejectors w2 (<[e := mkItemEjector (<[j := s']> (slots comp2))
                                                (cachedConnectedSlots comp2)]> (ejectors w2)), rs'))
    by (unfold updateSlot; rewrite Hc2, Hs2, Hej; reflexivity).
  eexists. split; [exact Hu|].
  exact (tickFrame_trans _ _ _ H2 (updateSlot_frame _ _ _ _ _ _ _ Hu)).
Qed.

(** X5: with no pending area, a tick never throws when the connected list
    of every registered ejector only names slots whose cached target and
    destination are set, the target having an ItemAcceptor, and every belt
    has a path. *)
Theorem update_total (g : Q) (w : World) (rs : RS) :
  areaToRecompute w = None →
  (∀ u, u ∈ allEntities w → connectedSound w u) → beltsHavePaths w →
  ∃ st', update g (w, rs) = Ok st'.
Proof. intros Ha Hs Hb. exact (update_total_aux g w rs Ha Hs Hb). Qed.

(** X6: with no pending area, a tick leaves a slot exactly as it was when
    the slot is empty, or its entity is not in the entity list, or its
    index is not in the entity's connected list. *)
Theorem update_untouched_slot (g : Q) (w w' : World) (rs rs' : RS) (u j : nat)
    (c : ItemEjectorComponent) (s : EjectorSlot) :
  areaToRecompute w = None →
  ejectors w !! u = Some c → slots c !! j = Some s →
  (item s = None ∨ u ∉ allEntities w ∨ j ∉ default [] (cachedConnectedSlots c)) →
  update g (w, rs) = Ok (w', rs') →
  ∃ c', ejectors w' !! u = Some c' ∧ slots c' !! j = Some s.
Proof.
  intros Ha Hc Hs Hcase. unfold update. rewrite Ha. simpl.
  intros H.
  enough (tickFrame w w' ∧ ∃ c', ejectors w' !! u = Some c' ∧ slots c' !! j = Some s)
    by tauto.
  revert H.
  apply (forEach_inv (λ st, tickFrame w st.1 ∧
                            ∃ c', ejectors st.1 !! u = Some c' ∧ slots c' !! j = Some s));
    [|split; [apply tickFrame_refl|eauto]].
  intros [w1 rs1] e [w2 rs2] He [H1 (c1 & Hc1 & Hs1)] Hup. simpl in *.
  split; [exact (tickFrame_trans _ _ _ H1 (updateEntity_frame _ _ _ _ Hup))|].
  revert Hup. unfold updateEntity. simpl.
  destruct (ejectors w1 !! e) as [comp|] eqn:Hce; [|discriminate].
  destruct (cachedConnectedSlots comp) as [conn|] eqn:Hcn;
    [|intros Hx; injection Hx as <- _; eauto].
  (* the connected list read by the tick is that of [w] *)
  assert (Hconn : e = u → default [] (cachedConnectedSlots c) = conn).
  { intros ->. pose proof (proj2 (proj2 (proj2 (proj2 (proj2 H1)))) u) as Hk.
    rewrite Hc, Hce in Hk. simpl in Hk. injection Hk as Hk _. rewrite <- Hk, Hcn. reflexivity. }
  apply (forEach_inv (λ st : World * RS,
           ∃ c', ejectors st.1 !! u = Some c' ∧ slots c' !! j = Some s)); [|eauto].
  intros [w3 rs3] j' [w4 rs4] Hj' (c3 & Hc3 & Hs3) Hu. simpl in *.
  destruct (updateSlot_shape _ _ _ _ _ _ _ Hu) as (comp3 & s3 & s3' & Hce3 & Hs3' & Hej & ->).
  simpl. destruct (decide (e = u)) as [->|Hne].
  - rewrite lookup_insert_eq. eexists. split; [reflexivity|]. simpl.
    rewrite Hc3 in Hce3. injection Hce3 as <-.
    destruct (decide (j' = j)) as [->|Hjne].
    + rewrite Hs3 in Hs3'. injection Hs3' as <-.
      assert (item s = None) as Hnone.
      { destruct Hcase as [Hn|[Hn|Hn]]; [exact Hn|contradiction|].
        rewrite (Hconn eq_refl) in Hn. contradiction. }
      rewrite (ejectSlot_none _ _ _ _ _ _ Hnone Hej).
      rewrite list_lookup_insert_eq; [reflexivity|]. apply lookup_lt_Some in Hs3. exact Hs3.
    + rewrite list_lookup_insert_ne by congruence. exact Hs3.
  - rewrite lookup_insert_ne by congruence. eauto.
Qed.

(** X7: a tick never puts an item into a slot nor replaces one: after it,
    every slot holds the item it held before, or nothing. *)
Theorem update_never_fills (g : Q) (w w' : World) (rs rs' : RS) (u j : nat)
    (c : ItemEjectorComponent) (s : EjectorSlot) :
  ejectors w !! u = Some c → slots c !! j = Some s →
  update g (w, rs) = Ok (w', rs') →
  ∃ c' s', ejectors w' !! u = Some c' ∧ slots c' !! j = Some s' ∧
    (item s' = item s ∨ item s' = None).
Proof.
  intros Hc Hs. unfold update. simpl.
  set (P := λ w1 : World, ∃ c' s', ejectors w1 !! u = Some c' ∧ slots c' !! j = Some s' ∧
                                   (item s' = item s ∨ item s' = None)).
  assert (HP : P w) by (exists c, s; auto).
  assert (Hw1 : ∀ w1, (match areaToRecompute w with
                       | Some _ => recomputeCache w | None => Ok w end) = Ok w1 → P w1).
  { intros w1 Hr. destruct (areaToRecompute w); [|injection Hr as <-; exact HP].
    pose proof (recomputeCache_keys _ _ Hr u) as Hk. rewrite Hc in Hk.
    destruct (ejectors w1 !! u) as [c1|] eqn:Hc1; [|discriminate].
    simpl in Hk. injection Hk as Hk. unfold compKey in Hk.
    destruct (lookup_map_key slot_key _ _ _ _ Hk Hs) as (s1 & Hs1 & Hkey).
    apply slot_key_eq in Hkey as (_ & _ & Hi & _).
    exists c1, s1. auto. }
  destruct (match areaToRecompute w with
            | Some _ => recomputeCache w | None => Ok w end) as [w1|] eqn:Hr;
    simpl; [|discriminate].
  specialize (Hw1 w1 eq_refl).
  intros H. change (P (w', rs').1). revert H.
  apply (forEach_inv (λ st : World * RS, P st.1)); [|exact Hw1].
  intros [w2 rs2] e [w3 rs3] _ H2 Hup. simpl in *. revert Hup.
  unfold updateEntity. simpl.
  destruct (ejectors w2 !! e) as [comp|]; [|discriminate].
  destruct (cachedConnectedSlots comp) as [conn|]; [|intros Hx; injection Hx as <- _; exact H2].
  apply (forEach_inv (λ st : World * RS, P st.1)); [|exact H2].
  intros [w4 rs4] j' [w5 rs5] _ (c4 & s4 & Hc4 & Hs4 & Hi4) Hu. simpl in *.
  destruct (updateSlot_shape _ _ _ _ _ _ _ Hu) as (comp4 & s5 & s5' & Hce4 & Hs5 & Hej & ->).
  unfold P. simpl. destruct (decide (e = u)) as [->|Hne].
  - rewrite Hc4 in Hce4. injection Hce4 as <-.
    destruct (decide (j' = j)) as [->|Hjne].
    + rewrite Hs4 in Hs5. injection Hs5 as <-.
      exists (mkItemEjector (<[j := s5']> (slots c4)) (cachedConnectedSlots c4)), s5'.
      rewrite lookup_insert_eq. split; [reflexivity|]. simpl.
      rewrite list_lookup_insert_eq by (apply lookup_lt_Some in Hs4; exact Hs4).
      split; [reflexivity|].
      destruct (item s4) as [it|] eqn:Hit.
      * destruct (ejectSlot_spec _ _ _ _ _ _ _ Hit Hej) as (_ & [Hk|[Hk _]]).
        -- rewrite Hk. exact Hi4.
        -- right. exact Hk.
      * rewrite (ejectSlot_none _ _ _ _ _ _ Hit Hej). right. exact Hit.
    + exists (mkItemEjector (<[j' := s5']> (slots c4)) (cachedConnectedSlots c4)), s4.
      rewrite lookup_insert_eq. split; [reflexivity|]. simpl.
      rewrite list_lookup_insert_ne by congruence. auto.
  - exists c4, s4. rewrite lookup_insert_ne by congruence. auto.
Qed.

(** X8: in a tick where a slot holding an item stays below progress 1, the
    slot only advances by the tick's growth: no acceptor is asked and the
    receivers' state is untouched. *)
Theorem ejectSlot_below_one (w : World) (g : Q) (rs : RS) (s : EjectorSlot) (it : Item) :
  item s = Some it → (progress s + g < 1)%Q →
  ejectSlot w g rs s = Ok (set_progress s (progress s + g), rs).
Proof.
  intros Hit Hlt. unfold ejectSlot. rewrite Hit.
  assert (Qmin 1 (progress s + g) = progress s + g)%Q as ->.
  { unfold Qmin, GenericMinMax.gmin. rewrite (proj1 (Qgt_alt 1 (progress s + g)) Hlt).
    reflexivity. }
  simpl. destruct (Qle_bool 1 (progress s + g)) eqn:Hb; [|reflexivity].
  apply Qle_bool_iff in Hb. exfalso. exact (Qlt_not_le _ _ Hlt Hb).
Qed.

Lemma forRange_zero {St : Type} (lo : Z) (f : St → Z → Result St) (s : St) :
  forRange lo 0 f s = Ok s.
Proof. reflexivity. Qed.

Lemma forRange_const {St : Type} (lo : Z) (n : nat) (f : St → Z → Result St) (s : St) :
  (∀ x, f s x = Ok s) → forRange lo n f s = Ok s.
Proof.
  intros Hf. revert lo. induction n as [|n IH]; intros lo; [reflexivity|].
  simpl. rewrite Hf. simpl. apply IH.
Qed.

(** X9: a pending area of zero or negative width or height recomputes no
    cache: recomputeCache only clears the pending area. *)
Theorem recomputeCache_empty_area (w : World) (a : Rectangle.t) :
  areaToRecompute w = Some a → (Rectangle.w a ≤ 0 ∨ Rectangle.h a ≤ 0) →
  recomputeCache w = Ok (set_area w None).
Proof.
  intros Ha Hwh. unfold recomputeCache, recomputeAreaCache. rewrite Ha.
  unfold Rectangle.right, Rectangle.bottom.
  destruct Hwh as [Hw|Hh].
  - replace (Z.to_nat (Rectangle.x a + Rectangle.w a - Rectangle.x a)) with 0%nat by lia.
    reflexivity.
  - rewrite (forRange_const _ _ _ (w, ∅)); [reflexivity|].
    intros x. replace (Z.to_nat (Rectangle.y a + Rectangle.h a - Rectangle.y a)) with 0%nat
      by lia. reflexivity.
Qed.

(** X10: with a pending area, recomputeCache consumes it and changes only
    ejector caches: every ejector entity found on a tile of the area ends
    with the cache a new recomputation would give (recomputing it again
    changes nothing), and the component of an entity with no tile in the
    area is kept. *)
Theorem recomputeCache_area_local (w w' : World) (a : Rectangle.t) :
  areaToRecompute w = Some a → recomputeCache w = Ok w' →
  areaToRecompute w' = None ∧ gameInitialized w' = gameInitialized w ∧
  entities w' = entities w ∧ tileContent w' = tileContent w ∧
  allEntities w' = allEntities w ∧
  (∀ t e, Rectangle.containsTile a t = true → tileContent w t = Some e →
          is_Some (ejectors w !! e) → recomputeSingleEntityCache w' e = Ok w') ∧
  (∀ e, (∀ t, Rectangle.containsTile a t = true → tileContent w t ≠ Some e) →
        ejectors w' !! e = ejectors w !! e).
Proof.
  intros Ha. unfold recomputeCache. rewrite Ha.
  destruct (recomputeAreaCache w a) as [w1|] eqn:Hr; simpl; [|discriminate].
  intros H. injection H as <-.
  destruct (areaRun_spec _ _ _ Hr) as ((H1 & H2 & H3 & H4 & _) & _ & Hin & Hout).
  simpl. repeat split; try congruence.
  - intros t e Ht Hte He. apply cacheFixed_recompute. exact (Hin t e Ht Hte He).
  - intros e Hno. apply Hout. intros t Ht Hte. exfalso. exact (Hno t Ht Hte).
Qed.

Lemma forEach_fixed (L : list nat) (w : World) :
  (∀ e, e ∈ L → recomputeSingleEntityCache w e = Ok w) →
  forEach L recomputeSingleEntityCache w = Ok w.
Proof.
  induction L as [|e L IH]; intros Hf; [reflexivity|].
  simpl. rewrite (Hf e ltac:(left)). simpl. apply IH.
  intros e' He'. apply Hf. right. exact He'.
Qed.

(** X11: with no pending area, recomputeCache recomputes every entity of
    the entity list, keeps the component of every other entity, changes
    nothing but ejector caches, and a second full recomputation changes
    nothing. *)
Theorem recomputeCache_full (w w' : World) :
  areaToRecompute w = None → recomputeCache w = Ok w' →
  areaToRecompute w' = None ∧ gameInitialized w' = gameInitialized w ∧
  entities w' = entities w ∧ tileContent w' = tileContent w ∧
  allEntities w' = allEntities w ∧
  (∀ e, e ∈ allEntities w → recomputeSingleEntityCache w' e = Ok w') ∧
  (∀ e, e ∉ allEntities w → ejectors w' !! e = ejectors w !! e) ∧
  recomputeCache w' = Ok w'.
Proof.
  intros Ha. unfold recomputeCache at 1. rewrite Ha. intros H.
  destruct (fullRun_spec _ _ _ H) as ((H1 & H2 & H3 & H4 & H5 & _) & _ & Hin & Hout).
  assert (Hfix : ∀ e, e ∈ allEntities w → recomputeSingleEntityCache w' e = Ok w')
    by (intros e He; apply cacheFixed_recompute, Hin, He).
  repeat split; try congruence; try assumption.
  unfold recomputeCache. rewrite H5, Ha, H4. apply forEach_fixed. exact Hfix.
Qed.

Lemma recomputeCache_full_sound (w w' : World) :
  areaToRecompute w = None → recomputeCache w = Ok w' →
  ∀ e, e ∈ allEntities w' → connectedSound w' e.
Proof.
  intros Ha. unfold recomputeCache. rewrite Ha. intros H e He.
  destruct (fullRun_spec _ _ _ H) as ((_ & _ & _ & H4 & _) & _ & Hin & _).
  rewrite H4 in He.
  exact (recomputeSingle_sound _ _ _ (cacheFixed_recompute _ _ (Hin e He))).
Qed.

(** X12: the tick that follows a successful full recomputation never
    throws, provided every belt has a path. *)
Theorem update_after_full_recompute (g : Q) (w w1 : World) (rs : RS) :
  areaToRecompute w = None → recomputeCache w = Ok w1 → beltsHavePaths w →
  ∃ st', update g (w1, rs) = Ok st'.
Proof.
  intros Ha Hr Hb.
  assert (Hs := recomputeCache_full_sound _ _ Ha Hr).
  unfold recomputeCache in Hr. rewrite Ha in Hr.
  destruct (fullRun_spec _ _ _ Hr) as ((H1 & H2 & H3 & H4 & H5 & _) & _).
  apply update_total_aux.
  - congruence.
  - exact Hs.
  - unfold beltsHavePaths. rewrite H2. exact Hb.
Qed.

(** ** drawSingleEntity *)

Lemma drawSlots_items (sc : SC) (ss : list EjectorSlot) :
  map drawnItem (drawSlots sc ss) = omap item ss.
Proof.
  induction ss as [|s ss IH]; [reflexivity|]. simpl.
  destruct (item s); simpl; [f_equal|]; exact IH.
Qed.

Lemma drawSlots_elem (sc : SC) (ss : list EjectorSlot) (call : DrawCall) :
  call ∈ drawSlots sc ss →
  ∃ s, s ∈ ss ∧ item s = Some (drawnItem call) ∧
    let realPosition := rotateFastMultipleOf90 (pos s) (rotation sc) in
    let v := enumDirectionToVector
               (transformDirectionFromMultipleOf90 (direction s) (rotation sc)) in
    drawnX call = ((inject_Z (origin sc).1 + inject_Z realPosition.1 + (1 # 2)
                    + inject_Z v.1 * (1 # 2) * progress s) * tileSize)%Q ∧
    drawnY call = ((inject_Z (origin sc).2 + inject_Z realPosition.2 + (1 # 2)
                    + inject_Z v.2 * (1 # 2) * progress s) * tileSize)%Q.
Proof.
  induction ss as [|s ss IH]; simpl; [intros H; apply elem_of_nil in H; done|].
  destruct (item s) as [it|] eqn:Hit.
  - intros [->|H]%elem_of_cons.
    + exists s. split; [left|]. simpl. auto.
    + destruct (IH H) as (s' & Hin & Hi & Hxy). exists s'. split; [right; exact Hin|]. auto.
  - intros H. destruct (IH H) as (s' & Hin & Hi & Hxy).
    exists s'. split; [right; exact Hin|]. auto.
Qed.

Lemma half_step_bounds (d : Direction) (p : Q) :
  (0 <= p <= 1)%Q →
  (0 <= (1 # 2) + inject_Z (enumDirectionToVector d).1 * (1 # 2) * p <= 1)%Q ∧
  (0 <= (1 # 2) + inject_Z (enumDirectionToVector d).2 * (1 # 2) * p <= 1)%Q.
Proof. intros Hp. destruct d; cbn [enumDirectionToVector fst snd]; unfold inject_Z; split; lra. Qed.

(** X13: drawSingleEntity draws nothing for an entity that should not be
    drawn; otherwise it draws, in slot order, exactly the items of the
    non-empty slots, one call each. *)
Theorem drawSingleEntity_items (w : World) (parameters : DP) (entity : nat)
    (calls : list DrawCall) :
  drawSingleEntity w parameters entity = Ok calls →
  ∃ sc, entities w !! entity ≫= StaticMapEntity = Some sc ∧
    (shouldBeDrawn sc parameters = false → calls = []) ∧
    (shouldBeDrawn sc parameters = true →
     ∃ c, ejectors w !! entity = Some c ∧ map drawnItem calls = omap item (slots c)).
Proof.
  unfold drawSingleEntity.
  destruct (entities w !! entity ≫= StaticMapEntity) as [sc|]; [|discriminate].
  intros H. exists sc. split; [reflexivity|].
  destruct (shouldBeDrawn sc parameters); simpl in H.
  - split; [discriminate|]. intros _.
    destruct (ejectors w !! entity) as [c|]; [|discriminate].
    injection H as <-. exists c. split; [reflexivity|]. apply drawSlots_items.
  - injection H as <-. split; [reflexivity|discriminate].
Qed.

(** X14: when every slot's progress lies in [0, 1], each item is drawn
    inside the tile of its slot (the entity's origin plus the rotated slot
    position, scaled by tileSize), at the centre of that tile while its
    progress is 0. *)
Theorem drawSingleEntity_in_tile (w : World) (parameters : DP) (entity : nat)
    (calls : list DrawCall) (sc : SC) (c : ItemEjectorComponent) :
  drawSingleEntity w parameters entity = Ok calls →
  entities w !! entity ≫= StaticMapEntity = Some sc → ejectors w !! entity = Some c →
  (∀ s, s ∈ slots c → (0 <= progress s <= 1)%Q) →
  ∀ call, call ∈ calls →
    ∃ s tx ty, s ∈ slots c ∧ item s = Some (drawnItem call) ∧
      drawnX call = (tx * tileSize)%Q ∧ drawnY call = (ty * tileSize)%Q ∧
      let tile := vadd (origin sc) (rotateFastMultipleOf90 (pos s) (rotation sc)) in
      (inject_Z tile.1 <= tx <= inject_Z tile.1 + 1)%Q ∧
      (inject_Z tile.2 <= ty <= inject_Z tile.2 + 1)%Q ∧
      ((progress s == 0)%Q → (tx == inject_Z tile.1 + (1 # 2))%Q ∧
                             (ty == inject_Z tile.2 + (1 # 2))%Q).
Proof.
  intros H Hs Hc Hp call Hcall. unfold drawSingleEntity in H. rewrite Hs in H.
  destruct (shouldBeDrawn sc parameters); simpl in H;
    [|injection H as <-; apply elem_of_nil in Hcall; done].
  rewrite Hc in H. injection H as <-.
  destruct (drawSlots_elem _ _ _ Hcall) as (s & Hin & Hi & Hx & Hy).
  eexists s, _, _. split; [exact Hin|]. split; [exact Hi|].
  split; [exact Hx|]. split; [exact Hy|]. simpl.
  rewrite !inject_Z_plus.
  destruct (half_step_bounds (transformDirectionFromMultipleOf90 (direction s) (rotation sc))
              (progress s) (Hp s Hin)) as [Bx By].
  split; [|split]; [lra|lra|].
  intros H0. rewrite H0. rewrite !Qmult_0_r. split; lra.
Qed.

(** ** checkForCacheInvalidation *)

(** X15: a notification changes nothing but the pending area, and the
    pending area only grows: every tile it covered stays covered. *)
Theorem checkForCacheInvalidation_only_grows (w : World) (e : nat) :
  gameInitialized (checkForCacheInvalidation w e) = gameInitialized w ∧
  entities (checkForCacheInvalidation w e) = entities w ∧
  ejectors (checkForCacheInvalidation w e) = ejectors w ∧
  tileContent (checkForCacheInvalidation w e) = tileContent w ∧
  allEntities (checkForCacheInvalidation w e) = allEntities w ∧
  (∀ r, covers (areaToRecompute w) r →
        covers (areaToRecompute (checkForCacheInvalidation w e)) r).
Proof.
  destruct (checkForCacheInvalidation_fields w e) as (H1 & H2 & H3 & H4 & H5).
  repeat split; try assumption.
  intros r. apply checkForCacheInvalidation_covers_mono.
Qed.

End MoreProperties.

(** * Instances on the demo grid *)

Module Witnesses.
Import Demo.

Lemma ents12_placed (grid : Vector → option nat) : acceptorsPlaced grid ents12.
Proof.
  intros t e d _ Hd Ha. unfold ents12 in Hd.
  apply lookup_insert_Some in Hd as [[<- <-]|[_ Hd]]; [destruct Ha; discriminate|].
  apply lookup_insert_Some in Hd as [[<- <-]|[_ Hd]]; [eexists; reflexivity|].
  rewrite lookup_empty in Hd. discriminate.
Qed.

Lemma checkForCacheInvalidation_ignored_witness :
  checkForCacheInvalidation (world12_cached false None 0) 2 = world12_cached false None 0 ∧
  areaToRecompute (checkForCacheInvalidation (world12_cached false None 0) 2) = None.
Proof.
  exact (checkForCacheInvalidation_ignored (world12_cached false None 0) 2 (or_introl eq_refl)).
Defined.

Lemma tryPassOverItem_belt_without_path_witness :
  tryPassOverItem world_belt ([] : Log) 7%nat 3%nat 0%nat
  = Err "Assertion failed: belt has no path".
Proof.
  exact (tryPassOverItem_belt_without_path world_belt [] 7%nat 3%nat 0%nat beltEntity
           (mkBelt None) eq_refl eq_refl eq_refl).
Defined.

Lemma tryPassOverItem_priority_witness :
  tryPassOverItem (world12 None 0) ([] : Log) 7%nat 2%nat 0%nat
  = Ok (firstAccepting (receiverCapabilities storageEntity 2%nat 7%nat 0%nat) []).
Proof.
  apply (tryPassOverItem_priority (world12 None 0) [] 7%nat 2%nat 0%nat storageEntity).
  - reflexivity.
  - intros bc Hbc. discriminate.
Defined.

Lemma recomputeSingleEntityCache_spec_witness :
  recomputeSingleEntityCache (world12 None 0) 1
  = Ok (set_ejectors (world12 None 0)
          (<[1%nat := recomputedComponent_spec (tileContent (world12 None 0))
                        (entities (world12 None 0)) (0, 0) (mkItemEjector [slot0 None 0] None)]>
             (ejectors (world12 None 0)))).
Proof.
  apply (recomputeSingleEntityCache_spec (world12 None 0) 1 _ (0, 0)).
  - reflexivity.
  - reflexivity.
  - exact (ents12_placed map12).
Defined.

Lemma recomputeSingleEntityCache_connected_null_witness :
  cachedConnectedSlots (cachedComp None 0) ≠ Some [] ∧
  (cachedConnectedSlots (cachedComp None 0) = None ↔
   Forall (λ s, cachedTargetEntity s = None) (slots (cachedComp None 0))).
Proof.
  apply (recomputeSingleEntityCache_connected_null (world12 None 0)
           (world12_cached true None 0) 1).
  - vm_compute. reflexivity.
  - reflexivity.
Defined.

Lemma notify_sequence_covers_witness :
  (∀ a, areaToRecompute (world12 None 0) = Some a →
        covers (areaToRecompute (foldl checkForCacheInvalidation (world12 None 0) [1%nat; 2%nat])) a) ∧
  (∀ e sc, e ∈ [1%nat; 2%nat] → entities (world12 None 0) !! e ≫= StaticMapEntity = Some sc →
     covers (areaToRecompute (foldl checkForCacheInvalidation (world12 None 0) [1%nat; 2%nat]))
            (Rectangle.expandedInAllDirections (getTileSpaceBounds sc) 2)).
Proof. exact (notify_sequence_covers (world12 None 0) [1%nat; 2%nat] eq_refl). Defined.

Lemma incremental_recompute_matches_full_witness :
  ∃ w', recomputeCache world1_removed = Ok w' ∧
        recomputeCache (set_area world1_removed None) = Ok w'.
Proof.
  assert (Hgrid : tileContent world1_removed = map1) by reflexivity.
  assert (Hlive : allEntities world1_removed = [1%nat]) by reflexivity.
  apply (incremental_recompute_matches_full (world12_cached true None 0)).
  - reflexivity.
  - vm_compute. reflexivity.
  - intros t u Ht. simpl in Ht. unfold map12 in Ht.
    repeat case_bool_decide; simplify_eq; eexists; reflexivity.
  - eapply rtc_l; [|apply rtc_refl]. unfold world1_removed.
    apply (EditStep (world12_cached true None 0) ents12 (<[1%nat := cachedComp None 0]> ∅)
             map1 [1%nat] 2).
    + reflexivity.
    + intros u d H. exact H.
    + intros u _. reflexivity.
    + intros u _. reflexivity.
    + intros t Ht. exists (1, 0). split; [reflexivity|]. simpl in Ht.
      unfold map1, map12 in Ht. repeat case_bool_decide; subst; try congruence. reflexivity.
    + intros u Hu. left. exact Hu.
    + intros t u Ht. unfold map1 in Ht. case_bool_decide; simplify_eq. eexists; reflexivity.
  - intros u Hu. rewrite Hlive in Hu. apply list_elem_of_singleton in Hu as ->.
    split; [eexists; reflexivity|]. split.
    + intros comp sc Hc Hs s Hsin. vm_compute in Hc. injection Hc as <-.
      vm_compute in Hs. injection Hs as <-. simpl in Hsin.
      apply list_elem_of_singleton in Hsin as ->. reflexivity.
    + exists (0, 0). split; [reflexivity|]. split; [exists (0, 0); reflexivity|].
      intros [x y] Ht. apply containsTile_iff in Ht.
      unfold Rectangle.right, Rectangle.bottom in Ht. simpl in Ht.
      assert (x = 0 ∧ y = 0) as [-> ->] by lia. reflexivity.
  - intros t u Ht _. rewrite Hgrid in Ht. rewrite Hlive.
    unfold map1 in Ht. case_bool_decide; simplify_eq. set_solver.
  - exact (ents12_placed _).
Defined.

Lemma update_ignores_map_witness :
  update 1 (set_tileContent (world12_cached true (Some 7%nat) 1) map1, [])
  = update 1 (world12_cached true (Some 7%nat) 1, [])
      ≫= λ st, Ok (set_tileContent st.1 map1, st.2).
Proof. exact (update_ignores_map 1 (world12_cached true (Some 7%nat) 1) [] map1 eq_refl). Defined.

(** Entity 2 is destroyed while the game is not initialized: the
    notification is dropped, no area is pending, and the next tick hands
    the item of entity 1 to the destroyed entity (log [(2, 7)], slot
    emptied) instead of skipping the slot. *)
Lemma update_hands_item_to_destroyed_target :
  tileContent (world1_stale false (Some 7%nat) 1) (1, 0) = None ∧
  match update 1 (checkForCacheInvalidation (world1_stale false (Some 7%nat) 1) 2, []) with
  | Ok (w', rs') =>
      rs' = [(2%nat, 7%nat)] ∧
      (item <$> (ejectors w' !! 1%nat ≫= λ c, slots c !! 0%nat)) = Some None
  | Err _ => False
  end.
Proof. split; [reflexivity|]. vm_compute. split; reflexivity. Qed.

(** Entity 1 has one slot and nothing to eject into: recomputing its cache
    gives back exactly the component as built, whose connected list is
    null, so the computed-with-no-connection state and the not-computed
    state are the same value. *)
Lemma zero_connections_same_as_uncomputed :
  cachedConnectedSlots (mkItemEjector [slot0 None 0] None) = None ∧
  ejectors world1_fresh !! 1%nat = Some (mkItemEjector [slot0 None 0] None) ∧
  recomputeSingleEntityCache world1_fresh 1 = Ok world1_fresh.
Proof. split; [reflexivity|]. split; [reflexivity|]. vm_compute. reflexivity. Qed.

(** Before the game is initialized, notifying entity 1 (placed at (0,0))
    leaves no pending area: no tile of its expanded bounds is covered. *)
Lemma notify_before_init_covers_nothing :
  areaToRecompute (foldl checkForCacheInvalidation (world12_cached false None 0) [1%nat]) = None ∧
  entities (world12_cached false None 0) !! 1%nat ≫= StaticMapEntity = Some (0, 0) ∧
  Rectangle.containsTile
    (Rectangle.expandedInAllDirections (getTileSpaceBounds ((0, 0) : Vector)) 2) (0, 0) = true.
Proof. split; [reflexivity|split; reflexivity]. Qed.


Lemma ents12_belts (w : DWorld) : entities w = ents12 → beltsHavePaths w.
Proof.
  intros Hw u d bc Hd Hb. rewrite Hw in Hd. unfold ents12 in Hd.
  apply lookup_insert_Some in Hd as [[<- <-]|[_ Hd]]; [discriminate|].
  apply lookup_insert_Some in Hd as [[<- <-]|[_ Hd]]; [discriminate|].
  rewrite lookup_empty in Hd. discriminate.
Qed.

Lemma recomputeSingleEntityCache_frame_witness :
  let w := world12 None 0 in let w' := world12_cached true None 0 in
  recomputeSingleEntityCache w 1 = Ok w' ∧
  (gameInitialized w' = gameInitialized w ∧ entities w' = entities w ∧
   tileContent w' = tileContent w ∧ allEntities w' = allEntities w ∧
   areaToRecompute w' = areaToRecompute w ∧
   (∀ e, e ≠ 1%nat → ejectors w' !! e = ejectors w !! e) ∧
   option_map compKey (ejectors w' !! 1%nat) = option_map compKey (ejectors w !! 1%nat)).
Proof.
  cbv zeta.
  assert (H : recomputeSingleEntityCache (world12 None 0) 1 = Ok (world12_cached true None 0))
    by (vm_compute; reflexivity).
  split; [exact H|]. exact (recomputeSingleEntityCache_frame _ _ 1 H).
Defined.

Lemma recomputeSingleEntityCache_connected_slots_witness :
  let comp' := cachedComp None 0 in
  recomputeSingleEntityCache (world12 None 0) 1 = Ok (world12_cached true None 0) ∧
  ejectors (world12_cached true None 0) !! 1%nat = Some comp' ∧
  (StronglySorted lt (default [] (cachedConnectedSlots comp')) ∧
   (∀ j, j ∈ default [] (cachedConnectedSlots comp') ↔
         ∃ s, slots comp' !! j = Some s ∧ is_Some (cachedTargetEntity s)) ∧
   (∀ s, s ∈ slots comp' → is_Some (cachedTargetEntity s) ↔ is_Some (cachedDestSlot s)) ∧
   (∀ s te, s ∈ slots comp' → cachedTargetEntity s = Some te →
      ∃ sc d, entities (world12 None 0) !! 1%nat ≫= StaticMapEntity = Some sc ∧
        tileContent (world12 None 0) (ejectTarget sc s).1 = Some te ∧
        entities (world12 None 0) !! te = Some d ∧ is_Some (ItemAcceptor d))).
Proof.
  cbv zeta.
  assert (H : recomputeSingleEntityCache (world12 None 0) 1 = Ok (world12_cached true None 0))
    by (vm_compute; reflexivity).
  assert (Hl : ejectors (world12_cached true None 0) !! 1%nat = Some (cachedComp None 0))
    by reflexivity.
  split; [exact H|]. split; [exact Hl|].
  exact (recomputeSingleEntityCache_connected_slots _ _ 1 _ H Hl).
Defined.

Lemma recomputeSingleEntityCache_unplaced_witness :
  ejectors world_unplaced !! 4%nat = Some (mkItemEjector [slot0 None 0] None) ∧
  entities world_unplaced !! 4%nat ≫= StaticMapEntity = None ∧
  recomputeSingleEntityCache world_unplaced 4 = Err "staticComp is undefined".
Proof.
  assert (Hc : ejectors world_unplaced !! 4%nat = Some (mkItemEjector [slot0 None 0] None))
    by reflexivity.
  assert (Hs : entities world_unplaced !! 4%nat ≫= StaticMapEntity = None) by reflexivity.
  split; [exact Hc|]. split; [exact Hs|].
  apply (proj2 (recomputeSingleEntityCache_unplaced world_unplaced 4 _ Hc Hs)).
  discriminate.
Defined.

Lemma update_frame_witness :
  let w := world12_cached true (Some 7%nat) 1 in let w' := world12_cached true None 1 in
  update 1 (w, ([] : Log)) = Ok (w', [(2%nat, 7%nat)]) ∧
  (gameInitialized w' = gameInitialized w ∧ entities w' = entities w ∧
   tileContent w' = tileContent w ∧ allEntities w' = allEntities w ∧
   areaToRecompute w' = None ∧
   (areaToRecompute w = None →
    ∀ u, option_map compCache (ejectors w' !! u) = option_map compCache (ejectors w !! u))).
Proof.
  cbv zeta.
  assert (H : update 1 (world12_cached true (Some 7%nat) 1, ([] : Log))
              = Ok (world12_cached true None 1, [(2%nat, 7%nat)]))
    by (vm_compute; reflexivity).
  split; [exact H|]. exact (update_frame 1 _ _ _ _ H).
Defined.

Lemma update_total_witness :
  ∃ st', update 1 (world12_cached true None 0, ([] : Log)) = Ok st'.
Proof.
  apply update_total.
  - reflexivity.
  - intros u Hu. simpl in Hu. apply list_elem_of_singleton in Hu as ->.
    exists (cachedComp None 0). split; [reflexivity|].
    intros j Hj. simpl in Hj. apply list_elem_of_singleton in Hj as ->.
    exists (cachedSlot0 None 0), 2%nat, (mkSlotMatch 0 Dleft), storageEntity.
    repeat split; [reflexivity..|]. eexists; reflexivity.
  - apply ents12_belts. reflexivity.
Defined.

Lemma update_untouched_slot_witness :
  update 1 (world12 (Some 7%nat) 0, ([] : Log)) = Ok (world12 (Some 7%nat) 0, []) ∧
  ∃ c', ejectors (world12 (Some 7%nat) 0) !! 1%nat = Some c' ∧
        slots c' !! 0%nat = Some (slot0 (Some 7%nat) 0).
Proof.
  assert (H : update 1 (world12 (Some 7%nat) 0, ([] : Log)) = Ok (world12 (Some 7%nat) 0, []))
    by (vm_compute; reflexivity).
  split; [exact H|].
  apply (update_untouched_slot 1 (world12 (Some 7%nat) 0) _ [] [] 1 0
           (mkItemEjector [slot0 (Some 7%nat) 0] None)).
  - reflexivity.
  - reflexivity.
  - reflexivity.
  - right. right. simpl. intros Hj. apply elem_of_nil in Hj. exact Hj.
  - exact H.
Defined.

Lemma update_never_fills_witness :
  update 1 (world12_cached true (Some 7%nat) 1, ([] : Log))
  = Ok (world12_cached true None 1, [(2%nat, 7%nat)]) ∧
  ∃ c' s', ejectors (world12_cached true None 1) !! 1%nat = Some c' ∧
    slots c' !! 0%nat = Some s' ∧ (item s' = Some 7%nat ∨ item s' = None).
Proof.
  assert (H : update 1 (world12_cached true (Some 7%nat) 1, ([] : Log))
              = Ok (world12_cached true None 1, [(2%nat, 7%nat)]))
    by (vm_compute; reflexivity).
  split; [exact H|].
  exact (update_never_fills 1 (world12_cached true (Some 7%nat) 1) _ [] _ 1 0 (cachedComp (Some 7%nat) 1)
           (cachedSlot0 (Some 7%nat) 1) eq_refl eq_refl H).
Defined.

Lemma ejectSlot_below_one_witness :
  ejectSlot (world12 None 0) (1 # 2) ([] : Log) (slot0 (Some 7%nat) 0)
  = Ok (set_progress (slot0 (Some 7%nat) 0) (0 + (1 # 2)), []).
Proof.
  apply (ejectSlot_below_one (world12 None 0) (1 # 2) [] (slot0 (Some 7%nat) 0) 7%nat).
  - reflexivity.
  - vm_compute. reflexivity.
Defined.

Lemma recomputeCache_empty_area_witness :
  recomputeCache (set_area (world12 None 0) (Some (Rectangle.mk 0 0 0 1)))
  = Ok (set_area (set_area (world12 None 0) (Some (Rectangle.mk 0 0 0 1))) None).
Proof.
  apply (recomputeCache_empty_area _ (Rectangle.mk 0 0 0 1)).
  - reflexivity.
  - left. simpl. lia.
Defined.

Lemma recomputeCache_area_local_witness :
  let w := world1_removed in let w' := world1_fresh in let a := Rectangle.mk (-1) (-2) 5 5 in
  recomputeCache w = Ok w' ∧
  (areaToRecompute w' = None ∧ gameInitialized w' = gameInitialized w ∧
   entities w' = entities w ∧ tileContent w' = tileContent w ∧
   allEntities w' = allEntities w ∧
   (∀ t e, Rectangle.containsTile a t = true → tileContent w t = Some e →
           is_Some (ejectors w !! e) → recomputeSingleEntityCache w' e = Ok w') ∧
   (∀ e, (∀ t, Rectangle.containsTile a t = true → tileContent w t ≠ Some e) →
         ejectors w' !! e = ejectors w !! e)).
Proof.
  cbv zeta.
  assert (H : recomputeCache world1_removed = Ok world1_fresh) by (vm_compute; reflexivity).
  split; [exact H|].
  apply (recomputeCache_area_local world1_removed world1_fresh (Rectangle.mk (-1) (-2) 5 5)).
  - vm_compute. reflexivity.
  - exact H.
Defined.

Lemma recomputeCache_full_witness :
  let w := world12 None 0 in let w' := world12_cached true None 0 in
  recomputeCache w = Ok w' ∧
  (areaToRecompute w' = None ∧ gameInitialized w' = gameInitialized w ∧
   entities w' = entities w ∧ tileContent w' = tileContent w ∧
   allEntities w' = allEntities w ∧
   (∀ e, e ∈ allEntities w → recomputeSingleEntityCache w' e = Ok w') ∧
   (∀ e, e ∉ allEntities w → ejectors w' !! e = ejectors w !! e) ∧
   recomputeCache w' = Ok w').
Proof.
  cbv zeta.
  assert (H : recomputeCache (world12 None 0) = Ok (world12_cached true None 0))
    by (vm_compute; reflexivity).
  split; [exact H|]. exact (recomputeCache_full (world12 None 0) _ eq_refl H).
Defined.

Lemma update_after_full_recompute_witness :
  recomputeCache (world12 None 0) = Ok (world12_cached true None 0) ∧
  ∃ st', update 1 (world12_cached true None 0, ([] : Log)) = Ok st'.
Proof.
  assert (H : recomputeCache (world12 None 0) = Ok (world12_cached true None 0))
    by (vm_compute; reflexivity).
  split; [exact H|].
  apply (update_after_full_recompute 1 (world12 None 0) _ [] eq_refl H).
  apply ents12_belts. reflexivity.
Defined.

Lemma drawSingleEntity_items_witness :
  drawSingleEntity (world12 (Some 7%nat) (1 # 2)) tt 1
  = Ok (drawSlots ((0, 0) : Vector) [slot0 (Some 7%nat) (1 # 2)]) ∧
  ∃ sc, entities (world12 (Some 7%nat) (1 # 2)) !! 1%nat ≫= StaticMapEntity = Some sc ∧
    (shouldBeDrawn sc tt = false → drawSlots ((0, 0) : Vector) [slot0 (Some 7%nat) (1 # 2)] = []) ∧
    (shouldBeDrawn sc tt = true →
     ∃ c, ejectors (world12 (Some 7%nat) (1 # 2)) !! 1%nat = Some c ∧
       map drawnItem (drawSlots ((0, 0) : Vector) [slot0 (Some 7%nat) (1 # 2)])
       = omap item (slots c)).
Proof.
  assert (H : drawSingleEntity (world12 (Some 7%nat) (1 # 2)) tt 1
              = Ok (drawSlots ((0, 0) : Vector) [slot0 (Some 7%nat) (1 # 2)]))
    by (vm_compute; reflexivity).
  split; [exact H|]. exact (drawSingleEntity_items _ tt 1 _ H).
Defined.

Lemma drawSingleEntity_in_tile_witness :
  let calls := drawSlots ((0, 0) : Vector) [slot0 (Some 7%nat) (1 # 2)] in
  drawSingleEntity (world12 (Some 7%nat) (1 # 2)) tt 1 = Ok calls ∧
  ∀ call, call ∈ calls →
    ∃ s tx ty, s ∈ [slot0 (Some 7%nat) (1 # 2)] ∧ item s = Some (drawnItem call) ∧
      drawnX call = (tx * tileSize)%Q ∧ drawnY call = (ty * tileSize)%Q ∧
      let tile := vadd (origin ((0, 0) : Vector))
                    (rotateFastMultipleOf90 (pos s) (rotation ((0, 0) : Vector))) in
      (inject_Z tile.1 <= tx <= inject_Z tile.1 + 1)%Q ∧
      (inject_Z tile.2 <= ty <= inject_Z tile.2 + 1)%Q ∧
      ((progress s == 0)%Q → (tx == inject_Z tile.1 + (1 # 2))%Q ∧
                             (ty == inject_Z tile.2 + (1 # 2))%Q).
Proof.
  cbv zeta.
  assert (H : drawSingleEntity (world12 (Some 7%nat) (1 # 2)) tt 1
              = Ok (drawSlots ((0, 0) : Vector) [slot0 (Some 7%nat) (1 # 2)]))
    by (vm_compute; reflexivity).
  split; [exact H|].
  apply (drawSingleEntity_in_tile (world12 (Some 7%nat) (1 # 2)) tt 1 _ (0, 0)
           (mkItemEjector [slot0 (Some 7%nat) (1 # 2)] None) H).
  - reflexivity.
  - reflexivity.
  - intros s Hs. apply list_elem_of_singleton in Hs as ->.
    split; vm_compute; discriminate.
Defined.

End Witnesses.
